(** * XIPCompressor (src/compressor.py): a shallow embedding in Rocq

    Octets are [Byte.byte].  A Python [bytes] value is a [list byte].  The
    Python dicts of the program (the lookup table and the pair-frequency
    dict) are association lists in insertion order, with Python's
    update-in-place semantics for keys already present.  Exceptions are
    the constructors of [exc]; a computation that may raise returns a
    [result].  The module-level [random] generator is the stream
    [randbyte] (the k-th byte drawn by [random.randbytes(1)]) together with
    a counter of bytes drawn so far. *)

From Stdlib Require Import List Arith Lia Bool.
From Stdlib Require Import Strings.Byte.
Import ListNotations.

Module XIP.

(** ** Exceptions and results *)

Inductive exc :=
| TableExhausted      (* "Maximum characters reached in lookup table" *)
| RecursionError      (* Python's recursion limit reached *)
| UnboundLocalError   (* [max_pair] read before assignment in [__max_pair] *)
| OverflowError       (* [int.to_bytes()] of a value above 255 *)
| IndexError.         (* [bytes] indexed out of range *)

Inductive result (A : Type) :=
| Ok (a : A)
| Raise (e : exc).
Arguments Ok {A} a.
Arguments Raise {A} e.

Definition bind {A B} (m : result A) (k : A -> result B) : result B :=
  match m with Ok a => k a | Raise e => Raise e end.

Notation "x <- m ;; k" := (bind m (fun x => k))
  (at level 61, m at next level, right associativity).

(** CPython's default recursion limit, the depth budget of the two
    recursive methods [__get_replacement] and [__get_original]. *)
Definition recursion_limit : nat := 1000.

(** ** Python dicts as insertion-ordered association lists *)

Section Dict.
Context {K V : Type} (keqb : K -> K -> bool).

(** [d[k]] / [k in d] *)
Fixpoint dict_get (k : K) (d : list (K * V)) : option V :=
  match d with
  | [] => None
  | (k', v) :: d' => if keqb k k' then Some v else dict_get k d'
  end.

(** [d[k] = v]: an existing key keeps its position, a new key is appended. *)
Fixpoint dict_set (k : K) (v : V) (d : list (K * V)) : list (K * V) :=
  match d with
  | [] => [(k, v)]
  | (k', v') :: d' =>
      if keqb k k' then (k', v) :: d' else (k', v') :: dict_set k v d'
  end.
End Dict.

Definition pair_eqb (p q : byte * byte) : bool :=
  Byte.eqb (fst p) (fst q) && Byte.eqb (snd p) (snd q).

(** [b in data] for a one-byte [bytes] value [b] *)
Definition memb (b : byte) (l : list byte) : bool := existsb (Byte.eqb b) l.

(** The lookup table: code -> (component_0, component_1). *)
Definition table := list (byte * (byte * byte)).

Definition keys (t : table) : list byte := map fst t.

(** ** Pair frequencies (the [for i in range(data_len - 1)] loop) *)

(** The pairs [data[i] + data[i+1]] for [i] in [range(len(data) - 1)]. *)
Fixpoint adjacent_pairs (l : list byte) : list (byte * byte) :=
  match l with
  | [] => []
  | x :: tl =>
      match tl with
      | [] => []
      | y :: _ => (x, y) :: adjacent_pairs tl
      end
  end.

Definition freq_dict := list ((byte * byte) * nat).

(** [if pair in pairs: pairs[pair] += 1 else: pairs[pair] = 1] *)
Definition count_pair (pairs : freq_dict) (p : byte * byte) : freq_dict :=
  match dict_get pair_eqb p pairs with
  | Some n => dict_set pair_eqb p (S n) pairs
  | None => dict_set pair_eqb p 1 pairs
  end.

Definition pair_freq (data : list byte) : freq_dict :=
  fold_left count_pair (adjacent_pairs data) [].

(** ** [__max_pair]: scan with [freq >= max_freq]; [max_pair] is unbound
    (None) until the first assignment. *)

Definition max_pair_scan (acc : option (byte * byte) * nat)
    (e : (byte * byte) * nat) : option (byte * byte) * nat :=
  let '(mp, max_freq) := acc in
  let '(key, freq) := e in
  if max_freq <=? freq then (Some key, freq) else (mp, max_freq).

Definition max_pair (data : freq_dict) : result ((byte * byte) * nat) :=
  match fold_left max_pair_scan data (None, 0) with
  | (Some p, f) => Ok (p, f)
  | (None, _) => Raise UnboundLocalError
  end.

(** ** [bytes.replace(pair, code)]: non-overlapping, left to right *)

Fixpoint bytes_replace (p : byte * byte) (c : byte) (l : list byte) : list byte :=
  match l with
  | [] => []
  | x :: tl =>
      match tl with
      | [] => [x]
      | y :: rest =>
          if Byte.eqb x (fst p) && Byte.eqb y (snd p)
          then c :: bytes_replace p c rest
          else x :: bytes_replace p c tl
      end
  end.

(** ** [__get_replacement] *)

Section Allocator.
Variable randbyte : nat -> byte.

Fixpoint get_replacement_aux (depth : nat) (tbl : table) (raw : list byte)
    (r : nat) : result byte * nat :=
  if length tbl =? 256 - length (nodup byte_eq_dec raw)
  then (Raise TableExhausted, r)
  else
    let replacement := randbyte r in
    if memb replacement (keys tbl) || memb replacement raw
    then match depth with
         | 0 => (Raise RecursionError, S r)
         | S d => get_replacement_aux d tbl raw (S r)
         end
    else (Ok replacement, S r).

Definition get_replacement := get_replacement_aux recursion_limit.

End Allocator.

(** ** [compress_binary] *)

(** The compressor object: the singleton's two attributes. *)
Record compressor := {
  obj_lookup_table : table;
  obj_raw_file_data : list byte
}.

(** [XIPCompressor()]: [__init__] sets an empty table. *)
Definition fresh_compressor : compressor :=
  {| obj_lookup_table := []; obj_raw_file_data := [] |}.

(** The loop's state: the local [compressed_data] (with [data_len] always
    its length), the object's table, the local [last_pair_frequency] and
    the position of the random generator. *)
Record enc_state := {
  buffer : list byte;
  lookup_table : table;
  last_pair_frequency : nat;
  rng : nat
}.

Definition with_rng (s : enc_state) (r : nat) : enc_state :=
  {| buffer := buffer s; lookup_table := lookup_table s;
     last_pair_frequency := last_pair_frequency s; rng := r |}.

(** One execution of the loop body. *)
Inductive step :=
| Continue (s : enc_state)          (* body completed *)
| Break (s : enc_state)             (* [except Exception: break] *)
| Fail (e : exc) (s : enc_state).   (* an exception escapes the body *)

(** Leaving the loop. *)
Inductive loop_exit :=
| Exited (s : enc_state)
| Raised (e : exc) (s : enc_state)
| NoFuel.

Section Encoder.
Variable randbyte : nat -> byte.

Definition loop_body (raw : list byte) (s : enc_state) : step :=
  let pairs := pair_freq (buffer s) in
  match get_replacement randbyte (lookup_table s) raw (rng s) with
  | (Raise _, r) => Break (with_rng s r)
  | (Ok replacement, r) =>
      match max_pair pairs with
      | Raise e => Fail e (with_rng s r)
      | Ok (highest_occuring_pair, f) =>
          Continue {| buffer := bytes_replace highest_occuring_pair replacement (buffer s);
                      lookup_table := dict_set Byte.eqb replacement highest_occuring_pair
                                        (lookup_table s);
                      last_pair_frequency := f;
                      rng := r |}
      end
  end.

(** [while last_pair_frequency != 1: ...], run with a fuel bound
    ([compress_loop_fuel] below shows the bound used is never reached). *)
Fixpoint compress_loop (fuel : nat) (raw : list byte) (s : enc_state) : loop_exit :=
  if last_pair_frequency s =? 1 then Exited s
  else match fuel with
       | 0 => NoFuel
       | S n =>
           match loop_body raw s with
           | Continue s' => compress_loop n raw s'
           | Break s' => Exited s'
           | Fail e s' => Raised e s'
           end
       end.

(** [len(table).to_bytes() + compressed_data + key + value ...] *)
Definition serialize (s : enc_state) : result (list byte) :=
  match Byte.of_nat (length (lookup_table s)) with
  | None => Raise OverflowError
  | Some n =>
      Ok (n :: buffer s ++ flat_map (fun '(k, (a, b)) => [k; a; b]) (lookup_table s))
  end.

Definition enc_init (obj : compressor) (raw : list byte) (r : nat) : enc_state :=
  {| buffer := raw; lookup_table := obj_lookup_table obj;
     last_pair_frequency := 0; rng := r |}.

(** [compress_binary] on the file contents [raw], with the object [obj]
    and the generator at position [r]: the artifact (or the exception),
    the object afterwards and the generator's position afterwards.  [None]
    only if the loop's fuel bound is reached, which never happens. *)
Definition compress_binary (obj : compressor) (raw : list byte) (r : nat)
    : option (result (list byte) * compressor * nat) :=
  match compress_loop (S (length raw)) raw (enc_init obj raw r) with
  | Exited s =>
      Some (serialize s,
            {| obj_lookup_table := lookup_table s; obj_raw_file_data := raw |}, rng s)
  | Raised e s =>
      Some (Raise e,
            {| obj_lookup_table := lookup_table s; obj_raw_file_data := raw |}, rng s)
  | NoFuel => None
  end.

End Encoder.

(** ** [decompress_binary] *)

(** [__get_original]: the recursion is bounded by the depth budget. *)
Fixpoint get_original (depth : nat) (b : byte) (tbl : table) : result (list byte) :=
  match dict_get Byte.eqb b tbl with
  | None => Ok [b]
  | Some (c0, c1) =>
      match depth with
      | 0 => Raise RecursionError
      | S d =>
          b1 <- get_original d c0 tbl ;;
          b2 <- get_original d c1 tbl ;;
          Ok (b1 ++ b2)
      end
  end.

(** The [for i in range(0, 3 * byte_len, 3)] loop of [__reconstruct_dict]. *)
Fixpoint reconstruct_entries (k : nat) (chunk : list byte) (tbl : table) : result table :=
  match k with
  | 0 => Ok tbl
  | S k' =>
      match chunk with
      | c :: a :: b :: rest => reconstruct_entries k' rest (dict_set Byte.eqb c (a, b) tbl)
      | _ => Raise IndexError
      end
  end.

(** [__reconstruct_dict]: [data[-3 * byte_len:]] is the whole of [data]
    when [byte_len] is 0 or when [3 * byte_len] exceeds [len(data)]. *)
Definition reconstruct_dict (data : list byte) : result table :=
  match data with
  | [] => Raise IndexError
  | n :: _ =>
      let byte_len := Byte.to_nat n in
      let table_chunk :=
        if byte_len =? 0 then data else skipn (length data - 3 * byte_len) data in
      reconstruct_entries byte_len table_chunk []
  end.

(** [decompressed_data += __get_original(b)] for each payload octet. *)
Fixpoint expand_payload (tbl : table) (l : list byte) : result (list byte) :=
  match l with
  | [] => Ok []
  | b :: l' =>
      x <- get_original recursion_limit b tbl ;;
      y <- expand_payload tbl l' ;;
      Ok (x ++ y)
  end.

Definition decompress_binary (compressed_bytes : list byte) : result (list byte) :=
  reconstruction_dict <- reconstruct_dict compressed_bytes ;;
  let data_len := length compressed_bytes - length reconstruction_dict * 3 in
  expand_payload reconstruction_dict (skipn 1 (firstn data_len compressed_bytes)).

(** A concrete generator for examples: the k-th draw is [k mod 256]. *)
Definition counting_rand (k : nat) : byte :=
  match Byte.of_nat (k mod 256) with Some b => b | None => x00 end.

(** ** Auxiliary definitions for the statements *)

Definition pair_dec (p q : byte * byte) : {p = q} + {p <> q}.
Proof. decide equality; apply byte_eq_dec. Defined.

(** The pairs of a list, each kept at its first occurrence. *)
Definition first_occurrences (l : list (byte * byte)) : list (byte * byte) :=
  fold_left (fun acc x => if existsb (pair_eqb x) acc then acc else acc ++ [x]) l [].

(** One iteration of the [while] loop followed by the next loop test:
    [Reach raw s s'] when the loop, in state [s], gets to state [s'] at the
    start of a later iteration (or at the loop test that ends it). *)
Inductive Reach (randbyte : nat -> byte) (raw : list byte) : enc_state -> enc_state -> Prop :=
| reach_refl s : Reach randbyte raw s s
| reach_step s s' s'' :
    last_pair_frequency s <> 1 ->
    loop_body randbyte raw s = Continue s' ->
    Reach randbyte raw s' s'' ->
    Reach randbyte raw s s''.

(** The expansion of the spec (section 4.4): [expand o] is
    [expand c0 ++ expand c1] when [o] maps to [(c0, c1)], else [[o]]. *)
Inductive Expands (tbl : table) : byte -> list byte -> Prop :=
| expands_leaf o :
    dict_get Byte.eqb o tbl = None -> Expands tbl o [o]
| expands_node o c0 c1 x y :
    dict_get Byte.eqb o tbl = Some (c0, c1) ->
    Expands tbl c0 x -> Expands tbl c1 y -> Expands tbl o (x ++ y).

(** The payload as the spec states it: the octets from offset 1 up to the
    last [3 * entry_count] octets, [entry_count] being the first octet. *)
Definition spec_payload (art : list byte) : list byte :=
  skipn 1 (firstn (length art - 3 * Byte.to_nat (hd x00 art)) art).

(** The codes of the [k] records at the start of [chunk]. *)
Fixpoint record_codes (k : nat) (chunk : list byte) : list byte :=
  match k, chunk with
  | S k', c :: _ :: _ :: rest => c :: record_codes k' rest
  | _, _ => []
  end.

(** The trailer [__reconstruct_dict] reads. *)
Definition trailer (data : list byte) : list byte :=
  let byte_len := Byte.to_nat (hd x00 data) in
  if byte_len =? 0 then data else skipn (length data - 3 * byte_len) data.

(** The serialized table. *)
Definition table_bytes (t : table) : list byte :=
  flat_map (fun '(k, (a, b)) => [k; a; b]) t.

(** Expansion through a table built in insertion order, each entry
    reading only the entries before it ([rt] is the table reversed). *)
Fixpoint exp_rev (rt : table) (o : byte) : list byte :=
  match rt with
  | [] => [o]
  | (k, (a, b)) :: rt' => if Byte.eqb o k then exp_rev rt' a ++ exp_rev rt' b else exp_rev rt' o
  end.

Definition expansion (t : table) (o : byte) : list byte := exp_rev (rev t) o.

(** The shape of a table the encoder builds from [raw]: codes fresh, not
    in [raw], and components that are raw octets or earlier codes. *)
Inductive Layered (raw : list byte) : table -> Prop :=
| layered_nil : Layered raw []
| layered_snoc t k a b :
    Layered raw t ->
    ~ In k raw -> ~ In k (keys t) ->
    (In a raw \/ In a (keys t)) -> (In b raw \/ In b (keys t)) ->
    Layered raw (t ++ [(k, (a, b))]).

(** The invariant of the encoder loop started on an empty table. *)
Definition encoder_inv (raw : list byte) (s : enc_state) : Prop :=
  Layered raw (lookup_table s) /\
  (forall x, In x (buffer s) -> In x raw \/ In x (keys (lookup_table s))) /\
  concat (map (expansion (lookup_table s)) (buffer s)) = raw /\
  length (lookup_table s) <= 256 - length (nodup byte_eq_dec raw) /\
  (last_pair_frequency s <> 1 -> 2 <= length (buffer s)).

(** ** Sample inputs *)

(** The state after one more iteration, if the body completes. *)
Definition step_once (randbyte : nat -> byte) (raw : list byte) (s : enc_state) : enc_state :=
  match loop_body randbyte raw s with Continue s' => s' | _ => s end.

Definition sample_aaa : list byte := [x41; x41; x41].

Definition sample_abab : list byte := [x61; x62; x61; x62; x63; x61; x62].

(** 255 distinct octets (all but 0), then the pair [(1, 2)] once more. *)
Definition sample_full : list byte := map counting_rand (seq 1 255) ++ [x01; x02].


Definition aaa_init : enc_state := enc_init fresh_compressor sample_aaa 0.
Definition aaa_s1 : enc_state := step_once counting_rand sample_aaa aaa_init.
Definition aaa_s2 : enc_state := step_once counting_rand sample_aaa aaa_s1.
Definition abab_init : enc_state := enc_init fresh_compressor sample_abab 0.
Definition full_init : enc_state := enc_init fresh_compressor sample_full 0.
Definition full_s1 : enc_state := step_once counting_rand sample_full full_init.

End XIP.

Import XIP.

(** * Properties *)

(** ** Lemmas on dicts *)

Lemma byte_eqb_spec (x y : byte) : Byte.eqb x y = true <-> x = y.
Proof. split; [apply Byte.byte_dec_bl | apply Byte.byte_dec_lb]. Qed.

Lemma pair_eqb_spec (p q : byte * byte) : pair_eqb p q = true <-> p = q.
Proof.
  destruct p as [a b], q as [c d]; unfold pair_eqb; simpl.
  rewrite andb_true_iff, !byte_eqb_spec; split.
  - intros [-> ->]; reflexivity.
  - intros H; injection H; auto.
Qed.

Section DictLemmas.
Context {K V : Type} (keqb : K -> K -> bool).
Hypothesis keqb_spec : forall x y, keqb x y = true <-> x = y.

Lemma keqb_false x y : keqb x y = false <-> x <> y.
Proof.
  split.
  - intros H E; apply keqb_spec in E; congruence.
  - intros H; destruct (keqb x y) eqn:E; [apply keqb_spec in E; contradiction | reflexivity].
Qed.

Lemma dict_get_in (k : K) (v : V) d : dict_get keqb k d = Some v -> In (k, v) d.
Proof.
  induction d as [|[k' v'] d IH]; simpl; [discriminate|].
  destruct (keqb k k') eqn:E.
  - apply keqb_spec in E; intros H; injection H; intros; subst; auto.
  - auto.
Qed.

Lemma dict_get_none (k : K) d : dict_get (V:=V) keqb k d = None <-> ~ In k (map fst d).
Proof.
  induction d as [|[k' v'] d IH]; simpl; [tauto|].
  destruct (keqb k k') eqn:E.
  - apply keqb_spec in E; subst; split; [discriminate | intros H; exfalso; auto].
  - apply keqb_false in E; rewrite IH; split.
    + intros H [H'|H']; [congruence | auto].
    + auto.
Qed.

Lemma dict_get_nodup (k : K) (v : V) d :
  NoDup (map fst d) -> In (k, v) d -> dict_get keqb k d = Some v.
Proof.
  induction d as [|[k' v'] d IH]; simpl; [tauto|].
  intros Hn [H|H]; inversion Hn; subst.
  - injection H; intros; subst.
    destruct (keqb k k) eqn:E; [reflexivity|apply keqb_false in E; congruence].
  - destruct (keqb k k') eqn:E; [|auto].
    apply keqb_spec in E; subst. exfalso; apply H2.
    apply (in_map fst) in H; exact H.
Qed.

Lemma dict_set_fresh (k : K) (v : V) d :
  ~ In k (map fst d) -> dict_set keqb k v d = d ++ [(k, v)].
Proof.
  induction d as [|[k' v'] d IH]; simpl; [reflexivity|].
  intros H. destruct (keqb k k') eqn:E.
  - apply keqb_spec in E; subst; exfalso; auto.
  - rewrite IH; auto.
Qed.

Lemma dict_set_keys (k : K) (v : V) d :
  map fst (dict_set keqb k v d) =
  if existsb (keqb k) (map fst d) then map fst d else map fst d ++ [k].
Proof.
  induction d as [|[k' v'] d IH]; simpl; [reflexivity|].
  destruct (keqb k k') eqn:E; simpl; [reflexivity|].
  rewrite IH; destruct (existsb (keqb k) (map fst d)); reflexivity.
Qed.

Lemma existsb_keqb (k : K) l : existsb (keqb k) l = true <-> In k l.
Proof.
  rewrite existsb_exists; split.
  - intros [x [Hx E]]; apply keqb_spec in E; subst; exact Hx.
  - intros H; exists k; split; [exact H | apply keqb_spec; reflexivity].
Qed.

Lemma dict_set_nodup (k : K) (v : V) d :
  NoDup (map fst d) -> NoDup (map fst (dict_set keqb k v d)).
Proof.
  intros Hn; rewrite dict_set_keys.
  destruct (existsb (keqb k) (map fst d)) eqn:E; [exact Hn|].
  apply NoDup_app; [exact Hn | constructor; [auto | constructor] |].
  intros a Ha [Hb|[]]; subst.
  assert (existsb (keqb a) (map fst d) = true) by (apply existsb_keqb; exact Ha).
  congruence.
Qed.

Lemma dict_set_in (k k' : K) (v v' : V) d :
  NoDup (map fst d) -> In (k', v') (dict_set keqb k v d) ->
  (k' = k /\ v' = v) \/ (k' <> k /\ In (k', v') d).
Proof.
  induction d as [|[k0 v0] d IH]; simpl.
  - intros _ [H|[]]; injection H; intros; subst; auto.
  - intros Hn; inversion Hn as [|? ? Hk0 Hd]; subst.
    destruct (keqb k k0) eqn:E.
    + apply keqb_spec in E; subst.
      intros [H|H].
      * injection H; intros; subst; auto.
      * right; split; [|auto].
        intros ->; apply Hk0; apply (in_map fst) in H; exact H.
    + apply keqb_false in E.
      intros [H|H].
      * injection H; intros; subst; right; auto.
      * destruct (IH Hd H) as [[-> ->]|[Hne Hin]]; auto.
Qed.

Lemma dict_set_get_same (k : K) (v : V) d :
  dict_get keqb k (dict_set keqb k v d) = Some v.
Proof.
  induction d as [|[k0 v0] d IH]; simpl.
  - destruct (keqb k k) eqn:E; [reflexivity | apply keqb_false in E; congruence].
  - destruct (keqb k k0) eqn:E; simpl; rewrite ?E; [|exact IH].
    destruct (keqb k k0) eqn:E'; [reflexivity | congruence].
Qed.

Lemma dict_set_get_other (k k' : K) (v : V) d :
  k' <> k -> dict_get keqb k' (dict_set keqb k v d) = dict_get keqb k' d.
Proof.
  intros Hne; induction d as [|[k0 v0] d IH]; simpl.
  - destruct (keqb k' k) eqn:E; [apply keqb_spec in E; congruence | reflexivity].
  - destruct (keqb k k0) eqn:E; simpl.
    + apply keqb_spec in E; subst.
      destruct (keqb k' k0) eqn:E'; [apply keqb_spec in E'; congruence | reflexivity].
    + destruct (keqb k' k0); [reflexivity | exact IH].
Qed.

End DictLemmas.

(** ** The pair-frequency dict *)

Definition first_occ_step (acc : list (byte * byte)) (x : byte * byte) :=
  if existsb (pair_eqb x) acc then acc else acc ++ [x].

Lemma count_pair_keys d p :
  map fst (count_pair d p) = first_occ_step (map fst d) p.
Proof.
  unfold count_pair, first_occ_step.
  destruct (dict_get pair_eqb p d); rewrite dict_set_keys; reflexivity.
Qed.

Lemma fold_count_pair_keys l d :
  map fst (fold_left count_pair l d) = fold_left first_occ_step l (map fst d).
Proof.
  revert d; induction l as [|p l IH]; intros d; simpl; [reflexivity|].
  rewrite IH, count_pair_keys; reflexivity.
Qed.

Lemma pair_freq_keys data :
  map fst (pair_freq data) = first_occurrences (adjacent_pairs data).
Proof. unfold pair_freq, first_occurrences; apply fold_count_pair_keys. Qed.

Lemma fold_count_pair_spec l d pre :
  NoDup (map fst d) ->
  (forall q n, In (q, n) d -> n = count_occ pair_dec pre q) ->
  (forall q, In q pre <-> In q (map fst d)) ->
  let d' := fold_left count_pair l d in
  NoDup (map fst d') /\
  (forall q n, In (q, n) d' -> n = count_occ pair_dec (pre ++ l) q) /\
  (forall q, In q (pre ++ l) <-> In q (map fst d')).
Proof.
  revert d pre; induction l as [|p l IH]; intros d pre Hn Hc Hk; simpl.
  - rewrite app_nil_r; auto.
  - replace (pre ++ p :: l) with ((pre ++ [p]) ++ l) by (rewrite <- app_assoc; reflexivity).
    apply IH.
    + unfold count_pair; destruct (dict_get pair_eqb p d);
        apply dict_set_nodup; auto using pair_eqb_spec.
    + intros q n Hin; rewrite count_occ_app; simpl.
      unfold count_pair in Hin; destruct (dict_get pair_eqb p d) as [m|] eqn:E.
      * apply (dict_set_in pair_eqb pair_eqb_spec) in Hin; [|exact Hn].
        destruct Hin as [[-> ->]|[Hne Hin]].
        -- apply (dict_get_in pair_eqb pair_eqb_spec) in E; apply Hc in E; subst.
           destruct (pair_dec p p); [lia | congruence].
        -- rewrite (Hc _ _ Hin). destruct (pair_dec p q); [congruence | lia].
      * rewrite (dict_set_fresh pair_eqb pair_eqb_spec) in Hin
          by (apply (dict_get_none pair_eqb pair_eqb_spec); exact E).
        apply in_app_iff in Hin; destruct Hin as [Hin|[Hin|[]]].
        -- rewrite (Hc _ _ Hin). destruct (pair_dec p q); [|lia].
           subst; exfalso; apply (dict_get_none pair_eqb pair_eqb_spec) in E.
           apply (in_map fst) in Hin; exact (E Hin).
        -- injection Hin; intros; subst.
           destruct (pair_dec q q); [|congruence].
           assert (count_occ pair_dec pre q = 0) as ->; [|lia].
           apply count_occ_not_In; rewrite Hk.
           apply (dict_get_none pair_eqb pair_eqb_spec); exact E.
    + intros q; rewrite count_pair_keys; unfold first_occ_step.
      rewrite in_app_iff, Hk; simpl.
      destruct (existsb (pair_eqb p) (map fst d)) eqn:E.
      * apply (existsb_keqb pair_eqb pair_eqb_spec) in E.
        split; [intros [H|[H|[]]]; subst; auto | auto].
      * rewrite in_app_iff; simpl; tauto.
Qed.

Lemma pair_freq_spec data :
  NoDup (map fst (pair_freq data)) /\
  (forall q n, In (q, n) (pair_freq data) -> n = count_occ pair_dec (adjacent_pairs data) q) /\
  (forall q, In q (adjacent_pairs data) <-> In q (map fst (pair_freq data))).
Proof.
  apply (fold_count_pair_spec (adjacent_pairs data) [] []);
    [constructor | intros q n [] | simpl; tauto].
Qed.

(** ** [__max_pair] *)

Lemma max_pair_scan_spec d : forall mp m p f,
  fold_left max_pair_scan d (mp, m) = (Some p, f) ->
  m <= f /\
  ((mp = Some p /\ f = m /\ Forall (fun e => snd e < m) d) \/
   (exists l1 l2, d = l1 ++ (p, f) :: l2 /\
      Forall (fun e => snd e <= f) l1 /\ Forall (fun e => snd e < f) l2)).
Proof.
  induction d as [|[k n] d IH]; simpl; intros mp m p f H.
  - injection H; intros; subst; split; [lia | left; auto].
  - destruct (m <=? n) eqn:E.
    + apply Nat.leb_le in E.
      destruct (IH _ _ _ _ H) as [Hle [[Hs [-> Hf]]|[l1 [l2 [-> [H1 H2]]]]]].
      * injection Hs; intros ->; split; [lia|].
        right; exists [], d; auto.
      * split; [lia|]; right; exists ((k, n) :: l1), l2; split; [reflexivity|].
        split; [constructor; [simpl; lia | exact H1] | exact H2].
    + apply Nat.leb_gt in E.
      destruct (IH _ _ _ _ H) as [Hle [[Hs [-> Hf]]|[l1 [l2 [-> [H1 H2]]]]]].
      * split; [lia|]; left; split; [exact Hs|]; split; [reflexivity|].
        constructor; [simpl; lia | exact Hf].
      * split; [lia|]; right; exists ((k, n) :: l1), l2; split; [reflexivity|].
        split; [constructor; [simpl; lia | exact H1] | exact H2].
Qed.

Lemma max_pair_spec d p f :
  max_pair d = Ok (p, f) ->
  exists l1 l2, d = l1 ++ (p, f) :: l2 /\
    Forall (fun e => snd e <= f) l1 /\ Forall (fun e => snd e < f) l2.
Proof.
  unfold max_pair; destruct (fold_left max_pair_scan d (None, 0)) as [[q|] g] eqn:E;
    [|discriminate].
  intros H; injection H; intros; subst.
  destruct (max_pair_scan_spec _ _ _ _ _ E) as [_ [[Hs _]|Hsplit]]; [discriminate | exact Hsplit].
Qed.

Lemma max_pair_scan_some d : forall q m,
  exists p f, fold_left max_pair_scan d (Some q, m) = (Some p, f).
Proof.
  induction d as [|[k n] d IH]; simpl; intros q m; [eauto|].
  destruct (m <=? n); apply IH.
Qed.

Lemma max_pair_nil_iff d : (exists e, max_pair d = Raise e) <-> d = [].
Proof.
  unfold max_pair; split.
  - intros [e H]; destruct d as [|[k n] d]; [reflexivity|].
    simpl in H. destruct (max_pair_scan_some d k n) as [p [f E]].
    rewrite E in H; discriminate.
  - intros ->; simpl; eauto.
Qed.

(** ** Lists of octets *)

Lemma list_ind2 (P : list byte -> Prop) :
  P [] -> (forall x, P [x]) ->
  (forall x y rest, P rest -> P (y :: rest) -> P (x :: y :: rest)) ->
  forall l, P l.
Proof.
  intros H0 H1 H2 l.
  enough (P l /\ forall x, P (x :: l)) by tauto.
  induction l as [|x tl [IH1 IH2]]; [split; auto|].
  split; [exact (IH2 x)|]; intros y; apply H2; auto.
Qed.

Lemma bytes_replace_cons2 p c x y rest :
  bytes_replace p c (x :: y :: rest) =
  if Byte.eqb x (fst p) && Byte.eqb y (snd p)
  then c :: bytes_replace p c rest else x :: bytes_replace p c (y :: rest).
Proof. reflexivity. Qed.

Lemma adjacent_pairs_cons2 x y rest :
  adjacent_pairs (x :: y :: rest) = (x, y) :: adjacent_pairs (y :: rest).
Proof. reflexivity. Qed.

Lemma bytes_replace_length_le p c l : length (bytes_replace p c l) <= length l.
Proof.
  induction l as [| x | x y rest IH1 IH2] using list_ind2; [simpl; lia..|].
  rewrite bytes_replace_cons2; destruct (_ && _); simpl in *; lia.
Qed.

Lemma bytes_replace_length_lt p c l :
  In p (adjacent_pairs l) -> length (bytes_replace p c l) < length l.
Proof.
  induction l as [| x | x y rest IH1 IH2] using list_ind2; [simpl; tauto..|].
  rewrite adjacent_pairs_cons2, bytes_replace_cons2; intros [H|H].
  - subst p; simpl; rewrite !Byte.byte_dec_lb by reflexivity; simpl.
    pose proof (bytes_replace_length_le (x, y) c rest); lia.
  - destruct (_ && _); simpl.
    + pose proof (bytes_replace_length_le p c rest); lia.
    + specialize (IH2 H); simpl in IH2; lia.
Qed.

Lemma bytes_replace_length_half p c l : length l <= 2 * length (bytes_replace p c l).
Proof.
  induction l as [| x | x y rest IH1 IH2] using list_ind2; [simpl; lia..|].
  rewrite bytes_replace_cons2; destruct (_ && _); simpl in *; lia.
Qed.

Lemma bytes_replace_in p c l x : In x (bytes_replace p c l) -> x = c \/ In x l.
Proof.
  induction l as [| z | z y rest IH1 IH2] using list_ind2; [simpl; tauto..|].
  rewrite bytes_replace_cons2; destruct (_ && _); simpl.
  - intros [H|H]; [auto|]; destruct (IH1 H); auto.
  - intros [H|H]; [auto|]; destruct (IH2 H) as [H'|H']; [auto|]; simpl in H'; tauto.
Qed.

Lemma bytes_replace_concat (g : byte -> list byte) a b c l :
  g c = g a ++ g b ->
  concat (map g (bytes_replace (a, b) c l)) = concat (map g l).
Proof.
  intros Hg.
  induction l as [| x | x y rest IH1 IH2] using list_ind2; [reflexivity..|].
  rewrite bytes_replace_cons2; simpl fst; simpl snd.
  destruct (Byte.eqb x a && Byte.eqb y b) eqn:E.
  - apply andb_true_iff in E; destruct E as [E1 E2].
    apply byte_eqb_spec in E1; apply byte_eqb_spec in E2; subst.
    simpl; rewrite Hg, IH1, app_assoc; reflexivity.
  - cbn [map concat]; rewrite IH2; reflexivity.
Qed.

Lemma adjacent_pairs_in a b l : In (a, b) (adjacent_pairs l) -> In a l /\ In b l.
Proof.
  induction l as [| x | x y rest IH1 IH2] using list_ind2; [simpl; tauto..|].
  rewrite adjacent_pairs_cons2; intros [H|H].
  - injection H; intros; subst; simpl; auto.
  - destruct (IH2 H) as [Ha Hb]; simpl in *; tauto.
Qed.

Lemma adjacent_pairs_length l : length (adjacent_pairs l) = length l - 1.
Proof.
  induction l as [| x | x y rest IH1 IH2] using list_ind2; [reflexivity..|].
  rewrite adjacent_pairs_cons2; simpl in *; lia.
Qed.

(** ** [__get_replacement] *)

Lemma memb_false b l : memb b l = false <-> ~ In b l.
Proof.
  unfold memb; split.
  - intros H Hin; apply (existsb_keqb Byte.eqb byte_eqb_spec) in Hin; congruence.
  - intros H; destruct (existsb (Byte.eqb b) l) eqn:E; [|reflexivity].
    apply (existsb_keqb Byte.eqb byte_eqb_spec) in E; contradiction.
Qed.

Lemma get_replacement_aux_unfold randbyte d tbl raw r :
  get_replacement_aux randbyte d tbl raw r =
  if length tbl =? 256 - length (nodup byte_eq_dec raw)
  then (Raise TableExhausted, r)
  else if memb (randbyte r) (keys tbl) || memb (randbyte r) raw
  then match d with
       | 0 => (Raise RecursionError, S r)
       | S d' => get_replacement_aux randbyte d' tbl raw (S r)
       end
  else (Ok (randbyte r), S r).
Proof. destruct d; reflexivity. Qed.

Lemma get_replacement_aux_spec randbyte tbl raw : forall d r,
  (fst (get_replacement_aux randbyte d tbl raw r) = Raise TableExhausted <->
     length tbl = 256 - length (nodup byte_eq_dec raw)) /\
  (forall c, fst (get_replacement_aux randbyte d tbl raw r) = Ok c ->
     ~ In c (keys tbl) /\ ~ In c raw).
Proof.
  induction d as [|d IH]; intros r; rewrite get_replacement_aux_unfold;
    (destruct (length tbl =? 256 - length (nodup byte_eq_dec raw)) eqn:E;
     [apply Nat.eqb_eq in E; cbn [fst]; split;
        [split; [intros _; exact E | intros _; reflexivity] | discriminate]|]);
    apply Nat.eqb_neq in E;
    (destruct (memb (randbyte r) (keys tbl) || memb (randbyte r) raw) eqn:M).
  - cbn [fst]; split; [split; [discriminate | contradiction] | discriminate].
  - apply orb_false_iff in M; destruct M as [M1 M2]; apply memb_false in M1, M2.
    cbn [fst]; split; [split; [discriminate | contradiction] |].
    intros c H; injection H; intros; subst; auto.
  - apply IH.
  - apply orb_false_iff in M; destruct M as [M1 M2]; apply memb_false in M1, M2.
    cbn [fst]; split; [split; [discriminate | contradiction] |].
    intros c H; injection H; intros; subst; auto.
Qed.

(** ** The loop body *)

Lemma loop_body_continue randbyte raw s s' :
  loop_body randbyte raw s = Continue s' ->
  exists c r' p f,
    get_replacement randbyte (lookup_table s) raw (rng s) = (Ok c, r') /\
    max_pair (pair_freq (buffer s)) = Ok (p, f) /\
    s' = {| buffer := bytes_replace p c (buffer s);
            lookup_table := dict_set Byte.eqb c p (lookup_table s);
            last_pair_frequency := f; rng := r' |}.
Proof.
  unfold loop_body.
  destruct (get_replacement randbyte (lookup_table s) raw (rng s)) as [[c|e] r'] eqn:G;
    [|discriminate].
  destruct (max_pair (pair_freq (buffer s))) as [[p f]|e] eqn:M; [|discriminate].
  intros H; injection H; intros <-; exists c, r', p, f; auto.
Qed.

Lemma max_pair_in_buffer buf p f :
  max_pair (pair_freq buf) = Ok (p, f) ->
  In p (adjacent_pairs buf) /\ f = count_occ pair_dec (adjacent_pairs buf) p.
Proof.
  intros H; destruct (max_pair_spec _ _ _ H) as [l1 [l2 [E _]]].
  destruct (pair_freq_spec buf) as [_ [Hc Hk]].
  assert (Hin : In (p, f) (pair_freq buf)) by (rewrite E; apply in_or_app; simpl; auto).
  split; [apply Hk; apply (in_map fst) in Hin; exact Hin | exact (Hc _ _ Hin)].
Qed.

Lemma loop_body_shrinks randbyte raw s s' :
  loop_body randbyte raw s = Continue s' -> length (buffer s') < length (buffer s).
Proof.
  intros H; destruct (loop_body_continue _ _ _ _ H) as [c [r' [p [f [_ [M ->]]]]]].
  simpl; apply bytes_replace_length_lt, (max_pair_in_buffer _ _ _ M).
Qed.

Lemma keys_dict_set c p t x :
  In x (keys (dict_set Byte.eqb c p t)) <-> x = c \/ In x (keys t).
Proof.
  unfold keys; rewrite dict_set_keys by exact byte_eqb_spec.
  destruct (existsb (Byte.eqb c) (map fst t)) eqn:E.
  - apply (existsb_keqb Byte.eqb byte_eqb_spec) in E; split; [auto|].
    intros [->|H]; auto.
  - rewrite in_app_iff; simpl; split; intros [H|H]; intuition.
Qed.

(** ** Reaching a state of the loop *)

Lemma reach_snoc randbyte raw s s' s'' :
  Reach randbyte raw s s' -> last_pair_frequency s' <> 1 ->
  loop_body randbyte raw s' = Continue s'' -> Reach randbyte raw s s''.
Proof.
  induction 1 as [s|s s1 s2 H1 H2 H3 IH]; intros Hf Hb.
  - eapply reach_step; eauto; constructor.
  - eapply reach_step; eauto.
Qed.

Lemma reach_loop randbyte raw s s' :
  Reach randbyte raw s s' -> forall n, length (buffer s) < n ->
  exists m, length (buffer s') < m /\
    compress_loop randbyte n raw s = compress_loop randbyte m raw s'.
Proof.
  induction 1 as [s|s s1 s2 Hf Hb Hr IH]; intros n Hn; [eauto|].
  destruct n as [|n]; [lia|].
  pose proof (loop_body_shrinks _ _ _ _ Hb) as Hl.
  destruct (IH n ltac:(lia)) as [m [Hm E]].
  exists m; split; [exact Hm|].
  simpl; apply Nat.eqb_neq in Hf; rewrite Hf, Hb; exact E.
Qed.

Lemma compress_binary_reach randbyte obj raw r s :
  Reach randbyte raw (enc_init obj raw r) s ->
  exists m, length (buffer s) < m /\
    compress_binary randbyte obj raw r =
    match compress_loop randbyte m raw s with
    | Exited s => Some (serialize s, {| obj_lookup_table := lookup_table s; obj_raw_file_data := raw |}, rng s)
    | Raised e s => Some (Raise e, {| obj_lookup_table := lookup_table s; obj_raw_file_data := raw |}, rng s)
    | NoFuel => None
    end.
Proof.
  intros H; destruct (reach_loop _ _ _ _ H (S (length raw))) as [m [Hm E]]; [simpl; lia|].
  exists m; split; [exact Hm|]; unfold compress_binary; rewrite E; reflexivity.
Qed.

(** ** The working-buffer invariant *)

Lemma buffer_invariant_step randbyte raw s s' :
  loop_body randbyte raw s = Continue s' ->
  (forall x, In x (buffer s) -> In x raw \/ In x (keys (lookup_table s))) ->
  (forall x, In x (buffer s') -> In x raw \/ In x (keys (lookup_table s'))).
Proof.
  intros H Hinv x Hx.
  destruct (loop_body_continue _ _ _ _ H) as [c [r' [p [f [_ [_ ->]]]]]]; simpl in *.
  rewrite keys_dict_set.
  destruct (bytes_replace_in _ _ _ _ Hx) as [->|Hx']; [auto|].
  destruct (Hinv _ Hx'); auto.
Qed.

Lemma buffer_invariant_reach randbyte raw s s' :
  Reach randbyte raw s s' ->
  (forall x, In x (buffer s) -> In x raw \/ In x (keys (lookup_table s))) ->
  (forall x, In x (buffer s') -> In x raw \/ In x (keys (lookup_table s'))).
Proof.
  induction 1 as [s|s s1 s2 Hf Hb Hr IH]; intros Hinv; [exact Hinv|].
  apply IH, (buffer_invariant_step _ _ _ _ Hb Hinv).
Qed.

(** * The claims *)

(** C3: the allocator.  It raises [TableExhausted] exactly when the table
    holds [256 - (number of distinct octets of the input)] entries, and
    every code it returns is neither a key of the table nor an octet of
    the original input. *)
Theorem get_replacement_contract randbyte tbl raw r :
  (fst (get_replacement randbyte tbl raw r) = Raise TableExhausted <->
     length tbl = 256 - length (nodup byte_eq_dec raw)) /\
  (forall c, fst (get_replacement randbyte tbl raw r) = Ok c ->
     ~ In c (keys tbl) /\ ~ In c raw).
Proof. apply get_replacement_aux_spec. Qed.

(** C9: at every loop test of a compression of [raw], each octet of the
    working buffer is an octet of [raw] or a key of the table, so a code
    the allocator returns there does not occur in the buffer. *)
Theorem working_buffer_invariant randbyte obj raw r s :
  Reach randbyte raw (enc_init obj raw r) s ->
  (forall x, In x (buffer s) -> In x raw \/ In x (keys (lookup_table s))) /\
  (forall c r', get_replacement randbyte (lookup_table s) raw (rng s) = (Ok c, r') ->
     ~ In c (buffer s)).
Proof.
  intros H.
  assert (Hinv : forall x, In x (buffer s) -> In x raw \/ In x (keys (lookup_table s)))
    by (apply (buffer_invariant_reach _ _ _ _ H); simpl; auto).
  split; [exact Hinv|].
  intros c r' G Hc.
  destruct (get_replacement_aux_spec randbyte (lookup_table s) raw recursion_limit (rng s))
    as [_ Hok].
  unfold get_replacement in G; rewrite G in Hok.
  destruct (Hok c eq_refl) as [H1 H2].
  destruct (Hinv c Hc); contradiction.
Qed.

(** C6: in an iteration, the pair substituted is taken from the
    pair-frequency dict, whose keys are the adjacent pairs of the buffer
    in first-occurrence order and whose values are their counts; the pair
    has the largest count, every entry after it has a smaller one (so the
    last entry reaching the maximum wins). *)
Theorem loop_body_pair_choice randbyte raw s s' :
  loop_body randbyte raw s = Continue s' ->
  exists c p f l1 l2,
    lookup_table s' = dict_set Byte.eqb c p (lookup_table s) /\
    buffer s' = bytes_replace p c (buffer s) /\
    last_pair_frequency s' = f /\
    pair_freq (buffer s) = l1 ++ (p, f) :: l2 /\
    Forall (fun e => snd e <= f) l1 /\ Forall (fun e => snd e < f) l2 /\
    map fst (pair_freq (buffer s)) = first_occurrences (adjacent_pairs (buffer s)) /\
    Forall (fun e => snd e = count_occ pair_dec (adjacent_pairs (buffer s)) (fst e))
      (pair_freq (buffer s)).
Proof.
  intros H; destruct (loop_body_continue _ _ _ _ H) as [c [r' [p [f [_ [M ->]]]]]].
  destruct (max_pair_spec _ _ _ M) as [l1 [l2 [E [H1 H2]]]].
  exists c, p, f, l1, l2; simpl.
  repeat split; auto.
  - apply pair_freq_keys.
  - apply Forall_forall; intros [q n] Hin; simpl.
    destruct (pair_freq_spec (buffer s)) as [_ [Hc _]]; exact (Hc _ _ Hin).
Qed.

(** ** Leaving the loop *)

Lemma compress_loop_exit randbyte n raw s :
  last_pair_frequency s = 1 -> compress_loop randbyte n raw s = Exited s.
Proof. intros H; destruct n; simpl; rewrite H; reflexivity. Qed.

Lemma compress_loop_fuel randbyte raw : forall n s,
  length (buffer s) < n -> compress_loop randbyte n raw s <> NoFuel.
Proof.
  induction n as [|n IH]; intros s Hn; [lia|]; simpl.
  destruct (last_pair_frequency s =? 1); [discriminate|].
  destruct (loop_body randbyte raw s) as [s'|s'|e s'] eqn:B; try discriminate.
  apply IH; pose proof (loop_body_shrinks _ _ _ _ B); lia.
Qed.

Lemma compress_binary_some randbyte obj raw r :
  compress_binary randbyte obj raw r <> None.
Proof.
  unfold compress_binary.
  pose proof (compress_loop_fuel randbyte raw (S (length raw)) (enc_init obj raw r)
                ltac:(simpl; lia)).
  destruct (compress_loop _ _ _ _); congruence.
Qed.

Lemma nodup_length_pos (raw : list byte) : raw <> [] -> 1 <= length (nodup byte_eq_dec raw).
Proof.
  destruct raw as [|x raw]; [congruence|]; intros _.
  destruct (nodup byte_eq_dec (x :: raw)) eqn:E; [|simpl; lia].
  assert (In x (nodup byte_eq_dec (x :: raw))) by (apply nodup_In; simpl; auto).
  rewrite E in H; destruct H.
Qed.

Lemma serialize_small s :
  length (lookup_table s) <= 255 ->
  exists n, Byte.to_nat n = length (lookup_table s) /\
    serialize s = Ok (n :: buffer s ++ table_bytes (lookup_table s)).
Proof.
  intros H; unfold serialize.
  destruct (Byte.of_nat (length (lookup_table s))) as [n|] eqn:E.
  - exists n; split; [apply Byte.to_of_nat; exact E | reflexivity].
  - apply Byte.of_nat_None_iff in E; lia.
Qed.

(** C4: when the allocator raises [TableExhausted] at a loop test the
    compression reaches, the exception does not escape: the loop stops and
    [compress_binary] returns the artifact serialized from that state's
    buffer and table (entry count, buffer, trailer). *)
Theorem table_exhausted_recovery randbyte obj raw r s r' :
  Reach randbyte raw (enc_init obj raw r) s ->
  last_pair_frequency s <> 1 ->
  get_replacement randbyte (lookup_table s) raw (rng s) = (Raise TableExhausted, r') ->
  raw <> [] ->
  exists n, Byte.to_nat n = length (lookup_table s) /\
    compress_binary randbyte obj raw r =
      Some (Ok (n :: buffer s ++ table_bytes (lookup_table s)),
            {| obj_lookup_table := lookup_table s; obj_raw_file_data := raw |}, r').
Proof.
  intros Hr Hf G Hraw.
  destruct (get_replacement_aux_spec randbyte (lookup_table s) raw recursion_limit (rng s))
    as [Hex _].
  unfold get_replacement in G; rewrite G in Hex.
  assert (Hlen : length (lookup_table s) <= 255)
    by (rewrite (proj1 Hex eq_refl); pose proof (nodup_length_pos raw Hraw); lia).
  destruct (serialize_small (with_rng s r') Hlen) as [n [Hn Hs]].
  exists n; split; [exact Hn|].
  destruct (compress_binary_reach _ _ _ _ _ Hr) as [m [Hm ->]].
  destruct m as [|m]; [lia|]; simpl.
  apply Nat.eqb_neq in Hf; rewrite Hf.
  unfold loop_body; unfold get_replacement; rewrite G.
  simpl in Hs; rewrite Hs; reflexivity.
Qed.

(** C5: when an iteration computes a maximum pair frequency of 1 (its
    allocation having succeeded), it still adds one table entry, for a
    pair occurring once, and substitutes it; the loop then ends and the
    artifact is serialized from that state. *)
Theorem terminal_extra_substitution randbyte obj raw r s s' :
  Reach randbyte raw (enc_init obj raw r) s ->
  last_pair_frequency s <> 1 ->
  loop_body randbyte raw s = Continue s' ->
  last_pair_frequency s' = 1 ->
  exists c p,
    ~ In c (keys (lookup_table s)) /\
    lookup_table s' = lookup_table s ++ [(c, p)] /\
    buffer s' = bytes_replace p c (buffer s) /\
    count_occ pair_dec (adjacent_pairs (buffer s)) p = 1 /\
    compress_binary randbyte obj raw r =
      Some (serialize s', {| obj_lookup_table := lookup_table s'; obj_raw_file_data := raw |},
            rng s').
Proof.
  intros Hr Hf Hb Hf'.
  pose proof (reach_snoc _ _ _ _ _ Hr Hf Hb) as Hr'.
  destruct (loop_body_continue _ _ _ _ Hb) as [c [r' [p [f [G [M Hs']]]]]].
  destruct (get_replacement_aux_spec randbyte (lookup_table s) raw recursion_limit (rng s))
    as [_ Hok].
  unfold get_replacement in G; rewrite G in Hok.
  destruct (Hok c eq_refl) as [Hc _].
  destruct (max_pair_in_buffer _ _ _ M) as [_ Hcount].
  exists c, p; split; [exact Hc|].
  split; [rewrite Hs'; simpl; apply (dict_set_fresh Byte.eqb byte_eqb_spec); exact Hc|].
  split; [rewrite Hs'; reflexivity|].
  split; [rewrite Hs' in Hf'; simpl in Hf'; subst f; symmetry; exact Hcount|].
  destruct (compress_binary_reach _ _ _ _ _ Hr') as [m [_ ->]].
  rewrite compress_loop_exit by exact Hf'; reflexivity.
Qed.

(** ** Parsing the trailer *)

Lemma reconstruct_entries_ok : forall k chunk acc,
  3 * k <= length chunk -> exists t, reconstruct_entries k chunk acc = Ok t.
Proof.
  induction k as [|k IH]; intros chunk acc H; simpl; [eauto|].
  destruct chunk as [|c [|a [|b rest]]]; simpl in H; try lia.
  apply IH; lia.
Qed.

Lemma reconstruct_entries_short : forall k chunk acc,
  length chunk < 3 * k -> reconstruct_entries k chunk acc = Raise IndexError.
Proof.
  induction k as [|k IH]; intros chunk acc H; simpl; [lia|].
  destruct chunk as [|c [|a [|b rest]]]; simpl in H; try reflexivity.
  apply IH; lia.
Qed.

Lemma reconstruct_entries_nodup : forall k chunk acc t,
  NoDup (keys acc) -> reconstruct_entries k chunk acc = Ok t -> NoDup (keys t).
Proof.
  induction k as [|k IH]; intros chunk acc t Hn H; simpl in H.
  - injection H; intros <-; exact Hn.
  - destruct chunk as [|c [|a [|b rest]]]; try discriminate.
    apply (IH rest _ _ (dict_set_nodup Byte.eqb byte_eqb_spec c (a, b) acc Hn) H).
Qed.

Lemma reconstruct_entries_length : forall k chunk acc t,
  NoDup (keys acc ++ record_codes k chunk) ->
  reconstruct_entries k chunk acc = Ok t -> length t = length acc + k.
Proof.
  induction k as [|k IH]; intros chunk acc t Hn H; simpl in H.
  - injection H; intros <-; lia.
  - destruct chunk as [|c [|a [|b rest]]]; try discriminate.
    simpl in Hn.
    assert (Hc : ~ In c (keys acc)).
    { intros Hin; apply NoDup_remove_2 in Hn; apply Hn, in_or_app; auto. }
    rewrite (dict_set_fresh Byte.eqb byte_eqb_spec) in H by exact Hc.
    assert (Hn' : NoDup (keys (acc ++ [(c, (a, b))]) ++ record_codes k rest))
      by (unfold keys in *; rewrite map_app, <- app_assoc; exact Hn).
    rewrite (IH rest _ _ Hn' H).
    rewrite length_app; simpl; lia.
Qed.

Lemma reconstruct_dict_nodup art t : reconstruct_dict art = Ok t -> NoDup (keys t).
Proof.
  unfold reconstruct_dict; destruct art as [|n rest]; [discriminate|].
  apply reconstruct_entries_nodup; constructor.
Qed.

(** ** Expansion *)

Lemma get_original_unfold d b tbl :
  get_original d b tbl =
  match dict_get Byte.eqb b tbl with
  | None => Ok [b]
  | Some (c0, c1) =>
      match d with
      | 0 => Raise RecursionError
      | S d' => b1 <- get_original d' c0 tbl ;; b2 <- get_original d' c1 tbl ;; Ok (b1 ++ b2)
      end
  end.
Proof. destruct d; reflexivity. Qed.

Lemma get_original_expands : forall d b tbl x,
  get_original d b tbl = Ok x -> Expands tbl b x.
Proof.
  induction d as [|d IH]; intros b tbl x H; rewrite get_original_unfold in H;
    destruct (dict_get Byte.eqb b tbl) as [[c0 c1]|] eqn:E;
    try (injection H; intros <-; apply expands_leaf; exact E); try discriminate.
  destruct (get_original d c0 tbl) as [x0|e] eqn:E0; [|discriminate]; cbn [bind] in H.
  destruct (get_original d c1 tbl) as [x1|e] eqn:E1; [|discriminate]; cbn [bind] in H.
  injection H; intros <-; eapply expands_node; eauto.
Qed.

Lemma expand_payload_cons tbl b l :
  expand_payload tbl (b :: l) =
  (x <- get_original recursion_limit b tbl ;; y <- expand_payload tbl l ;; Ok (x ++ y)).
Proof. reflexivity. Qed.

Lemma expand_payload_expands tbl : forall l out,
  expand_payload tbl l = Ok out ->
  exists pieces, Forall2 (Expands tbl) l pieces /\ out = concat pieces.
Proof.
  induction l as [|b l IH]; intros out H.
  - injection H; intros <-; exists []; split; [constructor | reflexivity].
  - rewrite expand_payload_cons in H.
    destruct (get_original recursion_limit b tbl) as [x|e] eqn:E; [|discriminate]; cbn [bind] in H.
    destruct (expand_payload tbl l) as [y|e] eqn:E'; [|discriminate]; cbn [bind] in H.
    injection H; intros <-.
    destruct (IH y eq_refl) as [pieces [Hf ->]].
    exists (x :: pieces); split; [constructor; [eapply get_original_expands; eauto | exact Hf]|].
    reflexivity.
Qed.

(** C10: decompression raises when the artifact is empty or shorter than
    three times its first octet; from that length on, parsing the trailer
    does not raise. *)
Theorem truncated_artifact_raises art :
  ((art = [] \/ length art < 3 * Byte.to_nat (hd x00 art)) ->
     decompress_binary art = Raise IndexError) /\
  (art <> [] -> 3 * Byte.to_nat (hd x00 art) <= length art ->
     exists tbl, reconstruct_dict art = Ok tbl).
Proof.
  split.
  - intros [->|H]; [reflexivity|].
    destruct art as [|n rest]; [reflexivity|]; cbn [hd length] in H.
    unfold decompress_binary, reconstruct_dict.
    destruct (Byte.to_nat n =? 0) eqn:E; [apply Nat.eqb_eq in E; lia|].
    replace (length (n :: rest) - 3 * Byte.to_nat n) with 0 by (cbn [length]; lia).
    rewrite reconstruct_entries_short by (cbn [length skipn]; lia); reflexivity.
  - intros Hne H; destruct art as [|n rest]; [congruence|]; cbn [hd length] in H.
    unfold reconstruct_dict.
    destruct (Byte.to_nat n =? 0) eqn:E.
    + apply Nat.eqb_eq in E; rewrite E; cbn [reconstruct_entries]; eauto.
    + apply reconstruct_entries_ok; rewrite length_skipn; cbn [length]; lia.
Qed.

(** C7 (as stated, refuted): on an artifact whose trailer repeats a code,
    the payload the decoder expands is longer than
    [len - 1 - 3 * entry_count] octets. *)
Lemma decoder_payload_counterexample :
  ~ (forall art out, decompress_binary art = Ok out ->
       exists tbl, reconstruct_dict art = Ok tbl /\
       exists pieces, Forall2 (Expands tbl) (spec_payload art) pieces /\ out = concat pieces).
Proof.
  intros H.
  destruct (H [x02; x58; x00; x61; x62; x00; x61; x62] [x58; x61; x62; x61; x62] eq_refl)
    as [tbl [Ht [pieces [Hf Hout]]]].
  vm_compute in Ht; injection Ht; intros <-.
  vm_compute in Hf.
  inversion Hf as [|? piece ? ? Hx Hrest]; subst.
  inversion Hrest; subst.
  inversion Hx as [o Hnone|o c0 c1 x y Hsome]; subst.
  - discriminate.
  - discriminate.
Qed.

(** C7 (amended): whenever decompression returns, its result is the
    concatenation, in order, of the expansions of the octets from offset 1
    up to the last [3 * k] octets, [k] the number of distinct codes of the
    trailer (the table reconstructed has no repeated key); [k] is the
    entry count when the trailer's codes are pairwise distinct. *)
Theorem decoder_payload_expansion art out :
  decompress_binary art = Ok out ->
  exists tbl, reconstruct_dict art = Ok tbl /\ NoDup (keys tbl) /\
    (NoDup (record_codes (Byte.to_nat (hd x00 art)) (trailer art)) ->
       length tbl = Byte.to_nat (hd x00 art)) /\
    exists pieces,
      Forall2 (Expands tbl) (skipn 1 (firstn (length art - 3 * length tbl) art)) pieces /\
      out = concat pieces.
Proof.
  unfold decompress_binary; intros H.
  destruct (reconstruct_dict art) as [tbl|e] eqn:E; [|discriminate]; simpl in H.
  exists tbl; split; [reflexivity|]; split; [eapply reconstruct_dict_nodup; eauto|].
  split.
  - intros Hn; destruct art as [|n rest]; [discriminate|].
    unfold reconstruct_dict in E; unfold trailer in Hn; simpl hd in Hn.
    apply (reconstruct_entries_length _ _ [] _ Hn E).
  - rewrite Nat.mul_comm; apply expand_payload_expands; exact H.
Qed.

(** ** Round trip: the decoder on a table the encoder builds *)

Lemma expansion_nil o : expansion [] o = [o].
Proof. reflexivity. Qed.

Lemma expansion_snoc t k a b o :
  expansion (t ++ [(k, (a, b))]) o =
  if Byte.eqb o k then expansion t a ++ expansion t b else expansion t o.
Proof. unfold expansion; rewrite rev_app_distr; reflexivity. Qed.

Lemma keys_snoc t k (v : byte * byte) : keys (t ++ [(k, v)]) = keys t ++ [k].
Proof. unfold keys; rewrite map_app; reflexivity. Qed.

Lemma layered_keys raw t :
  Layered raw t -> NoDup (keys t) /\ (forall k, In k (keys t) -> ~ In k raw).
Proof.
  induction 1 as [|t k a b Ht [IHn IHk] Hkr Hkt Ha Hb]; [split; [constructor | intros k []]|].
  rewrite keys_snoc; split.
  - apply NoDup_app; [exact IHn | constructor; [auto | constructor] |].
    intros x Hx [<-|[]]; contradiction.
  - intros x Hx; apply in_app_iff in Hx; destruct Hx as [Hx|[<-|[]]]; auto.
Qed.

Lemma dict_get_app_notin (k : byte) (l1 l2 : table) :
  ~ In k (keys l1) -> dict_get Byte.eqb k (l1 ++ l2) = dict_get Byte.eqb k l2.
Proof.
  induction l1 as [|[k' v'] l1 IH]; intros H; [reflexivity|].
  cbn [app dict_get].
  destruct (Byte.eqb k k') eqn:E.
  - apply byte_eqb_spec in E; subst; exfalso; apply H; left; reflexivity.
  - apply IH; intros Hin; apply H; right; exact Hin.
Qed.

Lemma get_original_layered raw t :
  Layered raw t -> forall t2 o d,
  NoDup (keys (t ++ t2)) ->
  (forall k, In k (keys t2) -> ~ In k raw) ->
  (In o raw \/ In o (keys t)) -> length t <= d ->
  get_original d o (t ++ t2) = Ok (expansion t o).
Proof.
  induction 1 as [|t k a b Ht IH Hkr Hkt Ha Hb]; intros t2 o d Hn Hk2 Ho Hd.
  - destruct Ho as [Ho|[]]; cbn [app] in *.
    rewrite get_original_unfold.
    assert (dict_get Byte.eqb o t2 = None) as ->; [|reflexivity].
    apply (dict_get_none Byte.eqb byte_eqb_spec); intros Hin; exact (Hk2 o Hin Ho).
  - rewrite <- app_assoc in *; cbn [app] in *.
    rewrite length_app in Hd; cbn [length] in Hd.
    assert (Hk2' : forall k', In k' (keys ((k, (a, b)) :: t2)) -> ~ In k' raw)
      by (intros k' [<-|Hin]; auto).
    rewrite expansion_snoc.
    destruct (Byte.eqb o k) eqn:E.
    + apply byte_eqb_spec in E; subst o.
      rewrite get_original_unfold, dict_get_app_notin by exact Hkt.
      cbn [dict_get]; rewrite (proj2 (byte_eqb_spec k k) eq_refl).
      destruct d as [|d]; [lia|].
      rewrite (IH _ a d Hn Hk2' Ha ltac:(lia)); cbn [bind].
      rewrite (IH _ b d Hn Hk2' Hb ltac:(lia)); reflexivity.
    + apply IH; auto; [|lia].
      rewrite keys_snoc, in_app_iff in Ho.
      destruct Ho as [Ho|[Ho|[Ho|[]]]]; auto.
      rewrite <- Ho, (proj2 (byte_eqb_spec k k) eq_refl) in E; discriminate.
Qed.

Lemma expand_payload_layered raw t :
  Layered raw t -> length t <= recursion_limit -> forall l,
  (forall x, In x l -> In x raw \/ In x (keys t)) ->
  expand_payload t l = Ok (concat (map (expansion t) l)).
Proof.
  intros Hl Hlim; destruct (layered_keys _ _ Hl) as [Hnd _].
  induction l as [|x l IH]; intros Hx; [reflexivity|].
  rewrite expand_payload_cons.
  pose proof (get_original_layered raw t Hl [] x recursion_limit) as G.
  rewrite app_nil_r in G.
  rewrite G; [cbn [bind] | exact Hnd | intros k [] | apply Hx; left; reflexivity | exact Hlim].
  rewrite IH by (intros y Hy; apply Hx; right; exact Hy); reflexivity.
Qed.

Lemma table_bytes_cons c a b t :
  table_bytes ((c, (a, b)) :: t) = c :: a :: b :: table_bytes t.
Proof. reflexivity. Qed.

Lemma table_bytes_length t : length (table_bytes t) = 3 * length t.
Proof.
  induction t as [|[c [a b]] t IH]; [reflexivity|].
  rewrite table_bytes_cons; cbn [length]; lia.
Qed.

Lemma reconstruct_entries_table : forall t acc rest,
  NoDup (keys (acc ++ t)) ->
  reconstruct_entries (length t) (table_bytes t ++ rest) acc = Ok (acc ++ t).
Proof.
  induction t as [|[c [a b]] t IH]; intros acc rest Hn.
  - rewrite app_nil_r; reflexivity.
  - rewrite table_bytes_cons; cbn [length app reconstruct_entries].
    unfold keys in Hn; rewrite map_app in Hn; cbn [map fst] in Hn.
    rewrite (dict_set_fresh Byte.eqb byte_eqb_spec)
      by (apply NoDup_remove_2 in Hn; intros Hin; apply Hn, in_or_app; auto).
    rewrite IH; [rewrite <- app_assoc; reflexivity|].
    unfold keys; rewrite <- app_assoc, map_app; exact Hn.
Qed.

Lemma firstn_skipn_prefix (l1 l2 : list byte) :
  firstn (length l1) (l1 ++ l2) = l1 /\ skipn (length l1) (l1 ++ l2) = l2.
Proof. induction l1 as [|x l1 IH]; [split; reflexivity | cbn [length firstn skipn app]; split; f_equal; apply IH]. Qed.

Lemma decompress_serialized raw t buf n :
  Layered raw t ->
  (forall x, In x buf -> In x raw \/ In x (keys t)) ->
  length t <= 255 -> Byte.to_nat n = length t ->
  decompress_binary (n :: buf ++ table_bytes t) = Ok (concat (map (expansion t) buf)).
Proof.
  intros Hl Hb Hlen Hn.
  destruct (layered_keys _ _ Hl) as [Hnd _].
  assert (Hart : length (n :: buf ++ table_bytes t) = S (length buf) + 3 * length t)
    by (cbn [length]; rewrite length_app, table_bytes_length; lia).
  assert (Hrec : reconstruct_dict (n :: buf ++ table_bytes t) = Ok t).
  { unfold reconstruct_dict; cbv beta iota zeta; rewrite Hn.
    destruct (length t =? 0) eqn:E.
    - apply Nat.eqb_eq in E; destruct t; [reflexivity | discriminate].
    - rewrite Hart; replace (S (length buf) + 3 * length t - 3 * length t)
        with (S (length buf)) by lia.
      cbn [skipn]; rewrite (proj2 (firstn_skipn_prefix buf _)).
      rewrite <- (app_nil_r (table_bytes t)).
      apply (reconstruct_entries_table t [] []); exact Hnd. }
  unfold decompress_binary; rewrite Hrec; cbn [bind].
  rewrite Hart; replace (S (length buf) + 3 * length t - length t * 3)
    with (S (length buf)) by lia.
  cbn [firstn skipn]; rewrite (proj1 (firstn_skipn_prefix buf _)).
  apply (expand_payload_layered raw); auto; unfold recursion_limit; lia.
Qed.

(** ** Round trip: the encoder loop *)

Lemma encoder_inv_step randbyte raw s s' :
  loop_body randbyte raw s = Continue s' -> encoder_inv raw s -> encoder_inv raw s'.
Proof.
  intros H [Hl [Hb [Hc [Hlen _]]]].
  destruct (loop_body_continue _ _ _ _ H) as [c [r' [[a b] [f [G [M ->]]]]]].
  destruct (get_replacement_aux_spec randbyte (lookup_table s) raw recursion_limit (rng s))
    as [Hex Hok].
  unfold get_replacement in G; rewrite G in Hex, Hok; cbn [fst] in Hex, Hok.
  destruct (Hok c eq_refl) as [Hck Hcr].
  assert (Hne : length (lookup_table s) <> 256 - length (nodup byte_eq_dec raw))
    by (intros E; apply Hex in E; discriminate).
  destruct (max_pair_in_buffer _ _ _ M) as [Hadj Hf].
  destruct (adjacent_pairs_in _ _ _ Hadj) as [Ha Hb'].
  apply Hb in Ha; apply Hb in Hb'.
  unfold encoder_inv; cbn [buffer lookup_table last_pair_frequency].
  rewrite (dict_set_fresh Byte.eqb byte_eqb_spec) by exact Hck.
  assert (Hcb : ~ In c (buffer s)) by (intros Hin; destruct (Hb c Hin); contradiction).
  assert (Hnc : forall x, In x raw \/ In x (keys (lookup_table s)) -> Byte.eqb x c = false).
  { intros x Hx; apply (keqb_false Byte.eqb byte_eqb_spec); intros ->; destruct Hx; contradiction. }
  split; [apply layered_snoc; auto|].
  split.
  { intros x Hx; rewrite keys_snoc, in_app_iff.
    destruct (bytes_replace_in _ _ _ _ Hx) as [->|Hx']; [simpl; auto|].
    destruct (Hb x Hx'); auto. }
  split.
  { rewrite bytes_replace_concat.
    - rewrite <- Hc; f_equal; apply map_ext_in; intros x Hx.
      rewrite expansion_snoc, (Hnc x (Hb x Hx)); reflexivity.
    - rewrite !expansion_snoc, (Hnc a Ha), (Hnc b Hb'), (proj2 (byte_eqb_spec c c) eq_refl).
      reflexivity. }
  split; [rewrite length_app; cbn [length]; lia|].
  intros Hf1.
  pose proof (proj1 (count_occ_In pair_dec _ _) Hadj).
  pose proof (count_occ_bound pair_dec (a, b) (adjacent_pairs (buffer s))).
  rewrite adjacent_pairs_length in *.
  pose proof (bytes_replace_length_half (a, b) c (buffer s)).
  lia.
Qed.

Lemma loop_body_break randbyte raw s s' :
  loop_body randbyte raw s = Break s' -> exists r', s' = with_rng s r'.
Proof.
  unfold loop_body.
  destruct (get_replacement randbyte (lookup_table s) raw (rng s)) as [[c|e] r'].
  - destruct (max_pair (pair_freq (buffer s))) as [[p f]|e]; discriminate.
  - intros H; injection H; intros <-; eauto.
Qed.

Lemma loop_body_fail randbyte raw s e s' :
  loop_body randbyte raw s = Fail e s' -> length (buffer s) <= 1.
Proof.
  unfold loop_body.
  destruct (get_replacement randbyte (lookup_table s) raw (rng s)) as [[c|e'] r'];
    [|discriminate].
  destruct (max_pair (pair_freq (buffer s))) as [[p f]|e'] eqn:M; [discriminate|].
  intros _.
  assert (Hp : pair_freq (buffer s) = []) by (apply max_pair_nil_iff; eauto).
  destruct (pair_freq_spec (buffer s)) as [_ [_ Hk]].
  rewrite Hp in Hk.
  destruct (adjacent_pairs (buffer s)) as [|q l] eqn:E.
  - pose proof (adjacent_pairs_length (buffer s)); rewrite E in *; cbn [length] in *; lia.
  - exfalso; apply (Hk q); left; reflexivity.
Qed.

Lemma compress_loop_S randbyte n raw s :
  compress_loop randbyte (S n) raw s =
  if last_pair_frequency s =? 1 then Exited s
  else match loop_body randbyte raw s with
       | Continue s' => compress_loop randbyte n raw s'
       | Break s' => Exited s'
       | Fail e s' => Raised e s'
       end.
Proof. reflexivity. Qed.

Lemma compress_loop_inv randbyte raw : forall n s,
  encoder_inv raw s -> length (buffer s) < n ->
  exists s', compress_loop randbyte n raw s = Exited s' /\ encoder_inv raw s'.
Proof.
  induction n as [|n IH]; intros s Hinv Hn; [lia|].
  rewrite compress_loop_S.
  destruct (last_pair_frequency s =? 1) eqn:F; [eauto|].
  apply Nat.eqb_neq in F.
  destruct (loop_body randbyte raw s) as [s'|s'|e s'] eqn:B.
  - apply IH; [exact (encoder_inv_step _ _ _ _ B Hinv)|].
    pose proof (loop_body_shrinks _ _ _ _ B); lia.
  - destruct (loop_body_break _ _ _ _ B) as [r' ->].
    exists (with_rng s r'); split; [reflexivity|].
    destruct Hinv as (H1 & H2 & H3 & H4 & H5); repeat split; auto.
  - apply loop_body_fail in B.
    destruct Hinv as (_ & _ & _ & _ & H5); specialize (H5 F); lia.
Qed.

Lemma concat_map_singleton (l : list byte) : concat (map (fun o => [o]) l) = l.
Proof. induction l as [|x l IH]; [reflexivity | cbn [map concat app]; f_equal; exact IH]. Qed.

(** A compression on a fresh compressor of an input of at least two octets
    returns an artifact that decompresses to the input, whatever the
    random draws. *)
Lemma compress_decompress_roundtrip randbyte raw r :
  2 <= length raw ->
  exists art obj' r',
    compress_binary randbyte fresh_compressor raw r = Some (Ok art, obj', r') /\
    decompress_binary art = Ok raw.
Proof.
  intros Hlen.
  assert (Hinit : encoder_inv raw (enc_init fresh_compressor raw r)).
  { unfold encoder_inv; cbn [buffer lookup_table last_pair_frequency enc_init fresh_compressor
                                obj_lookup_table].
    split; [constructor|]; split; [auto|]; split.
    - unfold expansion; cbn [rev exp_rev]; apply concat_map_singleton.
    - split; [cbn [length]; lia | intros _; exact Hlen]. }
  destruct (compress_loop_inv randbyte raw (S (length raw)) _ Hinit ltac:(cbn; lia))
    as [s [E (Hl & Hb & Hc & Ht & _)]].
  assert (Hraw : raw <> []) by (intros ->; cbn in Hlen; lia).
  pose proof (nodup_length_pos raw Hraw).
  destruct (serialize_small s ltac:(lia)) as [n [Hn Hs]].
  exists (n :: buffer s ++ table_bytes (lookup_table s)),
         {| obj_lookup_table := lookup_table s; obj_raw_file_data := raw |}, (rng s).
  split.
  - unfold compress_binary; rewrite E, Hs; reflexivity.
  - rewrite (decompress_serialized raw _ _ _ Hl Hb ltac:(lia) Hn), Hc; reflexivity.
Qed.

(** ** Inputs of fewer than two octets *)

Lemma get_replacement_first_draw randbyte tbl raw r :
  length tbl <> 256 - length (nodup byte_eq_dec raw) ->
  ~ In (randbyte r) (keys tbl) -> ~ In (randbyte r) raw ->
  get_replacement randbyte tbl raw r = (Ok (randbyte r), S r).
Proof.
  intros H1 H2 H3; unfold get_replacement; rewrite get_replacement_aux_unfold.
  apply Nat.eqb_neq in H1; rewrite H1.
  apply memb_false in H2, H3; rewrite H2, H3; reflexivity.
Qed.

Lemma compress_short_raises randbyte raw r :
  length raw <= 1 ->
  length (@nil (byte * (byte * byte))) <> 256 - length (nodup byte_eq_dec raw) ->
  ~ In (randbyte r) raw ->
  compress_binary randbyte fresh_compressor raw r =
    Some (Raise UnboundLocalError, {| obj_lookup_table := []; obj_raw_file_data := raw |}, S r).
Proof.
  intros Hlen Hex Hin.
  unfold compress_binary; rewrite compress_loop_S; cbn [enc_init last_pair_frequency].
  change (0 =? 1) with false; cbv iota.
  unfold loop_body; cbn [buffer lookup_table rng enc_init fresh_compressor obj_lookup_table].
  rewrite get_replacement_first_draw by (auto; intros []).
  assert (Hp : pair_freq raw = []).
  { destruct raw as [|x [|y rest]]; [reflexivity | reflexivity | cbn [length] in Hlen; lia]. }
  rewrite Hp; reflexivity.
Qed.

Lemma compress_empty_raises randbyte r :
  compress_binary randbyte fresh_compressor [] r =
    Some (Raise UnboundLocalError, {| obj_lookup_table := []; obj_raw_file_data := [] |}, S r).
Proof. apply compress_short_raises; [cbn; lia | cbn; discriminate | intros []]. Qed.

(** C1 (code_bug): the round trip fails on the empty input, which
    [compress_binary] rejects with [UnboundLocalError] (the loop body runs
    and [__max_pair] reads its unassigned local); it holds on every input
    of at least two octets. *)
Theorem roundtrip_only_from_two_octets :
  (forall randbyte r, exists obj' r',
      compress_binary randbyte fresh_compressor [] r = Some (Raise UnboundLocalError, obj', r')) /\
  (forall randbyte raw r, 2 <= length raw ->
     exists art obj' r',
       compress_binary randbyte fresh_compressor raw r = Some (Ok art, obj', r') /\
       decompress_binary art = Ok raw).
Proof.
  split.
  - intros randbyte r; rewrite compress_empty_raises; eauto.
  - apply compress_decompress_roundtrip.
Qed.

(** C2 (code_bug): on an input of length 0, or of length 1 when the first
    random draw differs from its octet, the loop body does run and
    [compress_binary] raises [UnboundLocalError] instead of returning
    [[0] ++ X]. *)
Theorem degenerate_input_raises randbyte r x :
  randbyte r <> x ->
  compress_binary randbyte fresh_compressor [] r =
    Some (Raise UnboundLocalError, {| obj_lookup_table := []; obj_raw_file_data := [] |}, S r) /\
  compress_binary randbyte fresh_compressor [x] r =
    Some (Raise UnboundLocalError, {| obj_lookup_table := []; obj_raw_file_data := [x] |}, S r).
Proof.
  intros Hx; split; [apply compress_empty_raises|].
  apply compress_short_raises; [cbn; lia | cbn; discriminate |].
  intros [H|[]]; congruence.
Qed.

(** C8 (code_bug): the lookup table is an attribute of the compressor
    that [compress_binary] never resets.  Compressing [AB] and then
    [00 00] on the same object (random draws 0, 1, ...) gives an artifact
    with the first call's entry in its trailer, which decompresses to
    [ABAB]; a fresh object, with the same draws, gives one that
    decompresses to [00 00]. *)
Theorem lookup_table_persists :
  compress_binary counting_rand fresh_compressor [x41; x42] 0 =
    Some (Ok [x01; x00; x00; x41; x42],
          {| obj_lookup_table := [(x00, (x41, x42))]; obj_raw_file_data := [x41; x42] |}, 1) /\
  compress_binary counting_rand
    {| obj_lookup_table := [(x00, (x41, x42))]; obj_raw_file_data := [x41; x42] |} [x00; x00] 1 =
    Some (Ok [x02; x01; x00; x41; x42; x01; x00; x00],
          {| obj_lookup_table := [(x00, (x41, x42)); (x01, (x00, x00))];
             obj_raw_file_data := [x00; x00] |}, 2) /\
  compress_binary counting_rand fresh_compressor [x00; x00] 1 =
    Some (Ok [x01; x01; x01; x00; x00],
          {| obj_lookup_table := [(x01, (x00, x00))]; obj_raw_file_data := [x00; x00] |}, 2) /\
  decompress_binary [x02; x01; x00; x41; x42; x01; x00; x00] = Ok [x41; x42; x41; x42] /\
  decompress_binary [x01; x01; x01; x00; x00] = Ok [x00; x00].
Proof. repeat split; vm_compute; reflexivity. Qed.

(** ** Instances on sample inputs *)

Lemma reach_one randbyte raw s :
  last_pair_frequency s <> 1 ->
  loop_body randbyte raw s = Continue (step_once randbyte raw s) ->
  Reach randbyte raw s (step_once randbyte raw s).
Proof.
  intros Hf Hb; apply (reach_step _ _ _ (step_once randbyte raw s)); auto using reach_refl.
Qed.

Lemma degenerate_input_raises_witness :
  counting_rand 0 <> x41 /\
  compress_binary counting_rand fresh_compressor [] 0 =
    Some (Raise UnboundLocalError, {| obj_lookup_table := []; obj_raw_file_data := [] |}, 1) /\
  compress_binary counting_rand fresh_compressor [x41] 0 =
    Some (Raise UnboundLocalError, {| obj_lookup_table := []; obj_raw_file_data := [x41] |}, 1).
Proof.
  assert (H : counting_rand 0 <> x41) by (vm_compute; discriminate).
  split; [exact H | apply (degenerate_input_raises counting_rand 0 x41); exact H].
Defined.

Lemma working_buffer_invariant_witness :
  Reach counting_rand sample_aaa aaa_init aaa_s1 /\
  (forall x, In x (buffer aaa_s1) -> In x sample_aaa \/ In x (keys (lookup_table aaa_s1))) /\
  (forall c r', get_replacement counting_rand (lookup_table aaa_s1) sample_aaa (rng aaa_s1) = (Ok c, r') ->
     ~ In c (buffer aaa_s1)).
Proof.
  assert (H : Reach counting_rand sample_aaa aaa_init aaa_s1)
    by (apply reach_one; vm_compute; [discriminate | reflexivity]).
  split; [exact H | apply (working_buffer_invariant counting_rand fresh_compressor sample_aaa 0 aaa_s1); exact H].
Defined.

Lemma loop_body_pair_choice_witness :
  loop_body counting_rand sample_abab abab_init = Continue (step_once counting_rand sample_abab abab_init) /\
  exists c p f l1 l2,
    lookup_table (step_once counting_rand sample_abab abab_init) = dict_set Byte.eqb c p (lookup_table abab_init) /\
    buffer (step_once counting_rand sample_abab abab_init) = bytes_replace p c (buffer abab_init) /\
    last_pair_frequency (step_once counting_rand sample_abab abab_init) = f /\
    pair_freq (buffer abab_init) = l1 ++ (p, f) :: l2 /\
    Forall (fun e => snd e <= f) l1 /\ Forall (fun e => snd e < f) l2 /\
    map fst (pair_freq (buffer abab_init)) = first_occurrences (adjacent_pairs (buffer abab_init)) /\
    Forall (fun e => snd e = count_occ pair_dec (adjacent_pairs (buffer abab_init)) (fst e))
      (pair_freq (buffer abab_init)).
Proof.
  assert (H : loop_body counting_rand sample_abab abab_init =
              Continue (step_once counting_rand sample_abab abab_init))
    by (vm_compute; reflexivity).
  split; [exact H | apply (loop_body_pair_choice counting_rand sample_abab abab_init); exact H].
Defined.

Lemma table_exhausted_recovery_witness :
  Reach counting_rand sample_full full_init full_s1 /\
  last_pair_frequency full_s1 <> 1 /\
  get_replacement counting_rand (lookup_table full_s1) sample_full (rng full_s1) = (Raise TableExhausted, 1) /\
  sample_full <> [] /\
  exists n, Byte.to_nat n = length (lookup_table full_s1) /\
    compress_binary counting_rand fresh_compressor sample_full 0 =
      Some (Ok (n :: buffer full_s1 ++ table_bytes (lookup_table full_s1)),
            {| obj_lookup_table := lookup_table full_s1; obj_raw_file_data := sample_full |}, 1).
Proof.
  assert (H1 : Reach counting_rand sample_full full_init full_s1)
    by (apply reach_one; vm_compute; [discriminate | reflexivity]).
  assert (H2 : last_pair_frequency full_s1 <> 1) by (vm_compute; discriminate).
  assert (H3 : get_replacement counting_rand (lookup_table full_s1) sample_full (rng full_s1) =
               (Raise TableExhausted, 1)) by (vm_compute; reflexivity).
  assert (H4 : sample_full <> []) by (vm_compute; discriminate).
  split; [exact H1|]; split; [exact H2|]; split; [exact H3|]; split; [exact H4|].
  exact (table_exhausted_recovery counting_rand fresh_compressor sample_full 0 full_s1 1 H1 H2 H3 H4).
Defined.

Lemma terminal_extra_substitution_witness :
  Reach counting_rand sample_aaa aaa_init aaa_s1 /\
  last_pair_frequency aaa_s1 <> 1 /\
  loop_body counting_rand sample_aaa aaa_s1 = Continue aaa_s2 /\
  last_pair_frequency aaa_s2 = 1 /\
  exists c p,
    ~ In c (keys (lookup_table aaa_s1)) /\
    lookup_table aaa_s2 = lookup_table aaa_s1 ++ [(c, p)] /\
    buffer aaa_s2 = bytes_replace p c (buffer aaa_s1) /\
    count_occ pair_dec (adjacent_pairs (buffer aaa_s1)) p = 1 /\
    compress_binary counting_rand fresh_compressor sample_aaa 0 =
      Some (serialize aaa_s2, {| obj_lookup_table := lookup_table aaa_s2; obj_raw_file_data := sample_aaa |},
            rng aaa_s2).
Proof.
  assert (H1 : Reach counting_rand sample_aaa aaa_init aaa_s1)
    by (apply reach_one; vm_compute; [discriminate | reflexivity]).
  assert (H2 : last_pair_frequency aaa_s1 <> 1) by (vm_compute; discriminate).
  assert (H3 : loop_body counting_rand sample_aaa aaa_s1 = Continue aaa_s2) by (vm_compute; reflexivity).
  assert (H4 : last_pair_frequency aaa_s2 = 1) by (vm_compute; reflexivity).
  split; [exact H1|]; split; [exact H2|]; split; [exact H3|]; split; [exact H4|].
  exact (terminal_extra_substitution counting_rand fresh_compressor sample_aaa 0 aaa_s1 aaa_s2 H1 H2 H3 H4).
Defined.

Lemma decoder_payload_expansion_witness :
  decompress_binary [x02; x01; x00; x41; x41; x01; x00; x41] = Ok [x41; x41; x41] /\
  exists tbl, reconstruct_dict [x02; x01; x00; x41; x41; x01; x00; x41] = Ok tbl /\ NoDup (keys tbl) /\
    (NoDup (record_codes (Byte.to_nat (hd x00 [x02; x01; x00; x41; x41; x01; x00; x41]))
                         (trailer [x02; x01; x00; x41; x41; x01; x00; x41])) ->
       length tbl = Byte.to_nat (hd x00 [x02; x01; x00; x41; x41; x01; x00; x41])) /\
    exists pieces,
      Forall2 (Expands tbl)
        (skipn 1 (firstn (length [x02; x01; x00; x41; x41; x01; x00; x41] - 3 * length tbl)
                         [x02; x01; x00; x41; x41; x01; x00; x41])) pieces /\
      [x41; x41; x41] = concat pieces.
Proof.
  assert (H : decompress_binary [x02; x01; x00; x41; x41; x01; x00; x41] = Ok [x41; x41; x41])
    by (vm_compute; reflexivity).
  split; [exact H | exact (decoder_payload_expansion _ _ H)].
Defined.

(** * Further properties of the code *)

(** ** The pair-frequency dict *)

Lemma count_pair_sum d p :
  list_sum (map snd (count_pair d p)) = S (list_sum (map snd d)).
Proof.
  induction d as [|[k v] d IH]; [reflexivity|].
  unfold count_pair in *; cbn [dict_get dict_set].
  match goal with |- context [if ?t then Some v else _] => destruct t eqn:E end.
  - simpl; lia.
  - destruct (dict_get pair_eqb p d); simpl in *; rewrite IH; lia.
Qed.

Lemma fold_count_pair_sum l : forall d,
  list_sum (map snd (fold_left count_pair l d)) = length l + list_sum (map snd d).
Proof.
  induction l as [|p l IH]; intros d; [reflexivity|].
  cbn [fold_left length]; rewrite IH, count_pair_sum; lia.
Qed.

(** The counts of the pair-frequency dict add up to [len(data) - 1], one
    per position [i] of the [for] loop, and no pair is a key twice. *)
Theorem pair_freq_total data :
  list_sum (map snd (pair_freq data)) = length data - 1 /\
  NoDup (map fst (pair_freq data)).
Proof.
  split; [|apply pair_freq_spec].
  unfold pair_freq; rewrite fold_count_pair_sum, adjacent_pairs_length; cbn; lia.
Qed.

(** ** [__max_pair] *)

(** [__max_pair] raises only [UnboundLocalError], and exactly on an empty
    dict. *)
Theorem max_pair_raises_iff_empty d :
  (forall e, max_pair d = Raise e -> e = UnboundLocalError) /\
  (max_pair d = Raise UnboundLocalError <-> d = []).
Proof.
  assert (He : forall e, max_pair d = Raise e -> e = UnboundLocalError).
  { unfold max_pair; intros e; destruct (fold_left max_pair_scan d (None, 0)) as [[q|] g];
      [discriminate | intros H; injection H; auto]. }
  split; [exact He|]; split.
  - intros H; apply max_pair_nil_iff; eauto.
  - intros ->; reflexivity.
Qed.

(** ** Substitution removes the pair *)

Lemma bytes_replace_removes a b c l :
  c <> a -> c <> b -> ~ In (a, b) (adjacent_pairs (bytes_replace (a, b) c l)).
Proof.
  intros Ha Hb.
  induction l as [| x | x y rest IH1 IH2] using list_ind2; [simpl; tauto..|].
  rewrite bytes_replace_cons2; cbn [fst snd].
  destruct (Byte.eqb x a && Byte.eqb y b) eqn:E.
  - destruct (bytes_replace (a, b) c rest) as [|z t] eqn:R; [simpl; tauto|].
    cbn [adjacent_pairs]; intros [H|H]; [injection H; intros; congruence | exact (IH1 H)].
  - destruct rest as [|w rest'].
    + cbn; intros [H|[]]; injection H; intros -> ->.
      rewrite !(proj2 (byte_eqb_spec _ _) eq_refl) in E; discriminate.
    + rewrite bytes_replace_cons2 in IH2 |- *; cbn [fst snd] in IH2 |- *.
      destruct (Byte.eqb y a && Byte.eqb w b) eqn:E'.
      * cbn [adjacent_pairs]; intros [H|H]; [injection H; intros; congruence|].
        exact (IH2 H).
      * cbn [adjacent_pairs]; intros [H|H]; [|exact (IH2 H)].
        injection H; intros -> ->.
        rewrite !(proj2 (byte_eqb_spec _ _) eq_refl) in E; discriminate.
Qed.

(** In an iteration reached by [compress_binary], the pair chosen is a
    pair of the buffer, the buffer is replaced by its substitution, and
    afterwards that pair no longer occurs in the buffer. *)
Theorem loop_body_eliminates_pair randbyte obj raw r s s' :
  Reach randbyte raw (enc_init obj raw r) s ->
  loop_body randbyte raw s = Continue s' ->
  exists p c,
    buffer s' = bytes_replace p c (buffer s) /\
    In p (adjacent_pairs (buffer s)) /\
    ~ In p (adjacent_pairs (buffer s')).
Proof.
  intros Hr Hb.
  assert (Hinv : forall x, In x (buffer s) -> In x raw \/ In x (keys (lookup_table s)))
    by (apply (buffer_invariant_reach _ _ _ _ Hr); simpl; auto).
  destruct (loop_body_continue _ _ _ _ Hb) as [c [r' [[a b] [f [G [M ->]]]]]].
  destruct (get_replacement_aux_spec randbyte (lookup_table s) raw recursion_limit (rng s))
    as [_ Hok].
  unfold get_replacement in G; rewrite G in Hok.
  destruct (Hok c eq_refl) as [Hck Hcr].
  destruct (max_pair_in_buffer _ _ _ M) as [Hadj _].
  destruct (adjacent_pairs_in _ _ _ Hadj) as [Ha Hb'].
  exists (a, b), c; split; [reflexivity|]; split; [exact Hadj|].
  cbn [buffer]; apply bytes_replace_removes.
  - intros ->; destruct (Hinv a Ha); contradiction.
  - intros ->; destruct (Hinv b Hb'); contradiction.
Qed.

(** ** [__get_original] on a code that refers to itself *)

Lemma get_original_error : forall d b tbl e,
  get_original d b tbl = Raise e -> e = RecursionError.
Proof.
  induction d as [|d IH]; intros b tbl e H; rewrite get_original_unfold in H;
    destruct (dict_get Byte.eqb b tbl) as [[c0 c1]|]; try discriminate.
  - injection H; auto.
  - destruct (get_original d c0 tbl) as [x0|e0] eqn:E0; cbn [bind] in H; [|injection H; intros <-; eauto].
    destruct (get_original d c1 tbl) as [x1|e1] eqn:E1; cbn [bind] in H; [discriminate|].
    injection H; intros <-; eauto.
Qed.

Lemma get_original_cycle : forall d k c0 c1 tbl,
  dict_get Byte.eqb k tbl = Some (c0, c1) -> (c0 = k \/ c1 = k) ->
  get_original d k tbl = Raise RecursionError.
Proof.
  induction d as [|d IH]; intros k c0 c1 tbl E Hk; rewrite get_original_unfold, E; [reflexivity|].
  destruct Hk as [ -> | -> ].
  - rewrite (IH k k c1 tbl E (or_introl eq_refl)); reflexivity.
  - destruct (get_original d c0 tbl) as [x0|e0] eqn:E0; cbn [bind].
    + rewrite (IH k c0 k tbl E (or_intror eq_refl)); reflexivity.
    + rewrite (get_original_error _ _ _ _ E0); reflexivity.
Qed.

Lemma expand_payload_raises tbl k : forall l,
  In k l -> get_original recursion_limit k tbl = Raise RecursionError ->
  expand_payload tbl l = Raise RecursionError.
Proof.
  induction l as [|b l IH]; intros Hin Hk; [destruct Hin|].
  rewrite expand_payload_cons.
  destruct Hin as [->|Hin]; [rewrite Hk; reflexivity|].
  destruct (get_original recursion_limit b tbl) as [x|e] eqn:E; cbn [bind].
  - rewrite (IH Hin Hk); reflexivity.
  - rewrite (get_original_error _ _ _ _ E); reflexivity.
Qed.

(** When the trailer maps a payload octet to a pair that contains that
    octet itself, [__get_original] recurses until the recursion limit and
    [decompress_binary] raises [RecursionError]. *)
Theorem decompress_self_reference_raises art tbl k c0 c1 :
  reconstruct_dict art = Ok tbl ->
  dict_get Byte.eqb k tbl = Some (c0, c1) -> (c0 = k \/ c1 = k) ->
  In k (skipn 1 (firstn (length art - length tbl * 3) art)) ->
  decompress_binary art = Raise RecursionError.
Proof.
  intros Hr E Hk Hin; unfold decompress_binary; rewrite Hr; cbn [bind].
  apply (expand_payload_raises tbl k); [exact Hin|].
  exact (get_original_cycle _ _ _ _ _ E Hk).
Qed.

(** ** Artifacts with no table entry *)

Lemma expand_payload_empty_table : forall l, expand_payload [] l = Ok l.
Proof.
  induction l as [|b l IH]; [reflexivity|].
  rewrite expand_payload_cons, get_original_unfold; cbn [dict_get bind].
  rewrite IH; reflexivity.
Qed.

(** An artifact whose entry count is 0 decompresses to the rest of the
    artifact, octet for octet ([data[-0:]] is the whole artifact, but no
    record is read from it). *)
Theorem decompress_zero_entries x :
  decompress_binary (x00 :: x) = Ok x.
Proof.
  unfold decompress_binary, reconstruct_dict.
  change (Byte.to_nat x00) with 0; cbn [Nat.eqb reconstruct_entries bind length Nat.mul].
  rewrite Nat.sub_0_r; cbn [firstn skipn]; rewrite firstn_all.
  apply expand_payload_empty_table.
Qed.

(** ** Parsing a serialized table *)

(** [__reconstruct_dict] reads back a table serialized as
    [count + payload + key + value ...], when its codes are distinct and
    the count is its size. *)
Theorem reconstruct_dict_serialized n payload t :
  NoDup (keys t) -> Byte.to_nat n = length t ->
  reconstruct_dict (n :: payload ++ table_bytes t) = Ok t.
Proof.
  intros Hnd Hn.
  assert (Hart : length (n :: payload ++ table_bytes t) = S (length payload) + 3 * length t)
    by (cbn [length]; rewrite length_app, table_bytes_length; lia).
  unfold reconstruct_dict; cbv beta iota zeta; rewrite Hn.
  destruct (length t =? 0) eqn:E.
  - apply Nat.eqb_eq in E; destruct t; [reflexivity | discriminate].
  - rewrite Hart; replace (S (length payload) + 3 * length t - 3 * length t)
      with (S (length payload)) by lia.
    cbn [skipn]; rewrite (proj2 (firstn_skipn_prefix payload _)).
    rewrite <- (app_nil_r (table_bytes t)).
    apply (reconstruct_entries_table t [] []); exact Hnd.
Qed.

(** ** Any failure of the allocator ends the loop *)

(** [except Exception: break] catches every exception of
    [__get_replacement], [RecursionError] as well as [TableExhausted]:
    when the allocation fails at a loop test the compression reaches, with
    at most 255 entries in the table, [compress_binary] returns the
    artifact serialized from that state. *)
Theorem allocation_failure_caught randbyte obj raw r s e r' :
  Reach randbyte raw (enc_init obj raw r) s ->
  last_pair_frequency s <> 1 ->
  get_replacement randbyte (lookup_table s) raw (rng s) = (Raise e, r') ->
  length (lookup_table s) <= 255 ->
  exists n, Byte.to_nat n = length (lookup_table s) /\
    compress_binary randbyte obj raw r =
      Some (Ok (n :: buffer s ++ table_bytes (lookup_table s)),
            {| obj_lookup_table := lookup_table s; obj_raw_file_data := raw |}, r').
Proof.
  intros Hr Hf G Hlen.
  destruct (serialize_small (with_rng s r') Hlen) as [n [Hn Hs]].
  exists n; split; [exact Hn|].
  destruct (compress_binary_reach _ _ _ _ _ Hr) as [m [Hm ->]].
  destruct m as [|m]; [lia|]; rewrite compress_loop_S.
  apply Nat.eqb_neq in Hf; rewrite Hf.
  unfold loop_body; rewrite G.
  rewrite Hs; reflexivity.
Qed.

(** ** The allocator's random draws *)

(** When the table is not full, the allocator returns the first draw
    that is neither a key nor an input octet, and consumes the draws up to
    it, provided it comes within the depth budget [d]. *)
Theorem get_replacement_first_admissible randbyte tbl raw : forall i d r,
  length tbl <> 256 - length (nodup byte_eq_dec raw) -> i <= d ->
  (forall j, j < i -> In (randbyte (r + j)) (keys tbl) \/ In (randbyte (r + j)) raw) ->
  ~ In (randbyte (r + i)) (keys tbl) -> ~ In (randbyte (r + i)) raw ->
  get_replacement_aux randbyte d tbl raw r = (Ok (randbyte (r + i)), S (r + i)).
Proof.
  induction i as [|i IH]; intros d r Hex Hd Hbad Hk Hr;
    rewrite get_replacement_aux_unfold; apply Nat.eqb_neq in Hex; rewrite Hex.
  - rewrite Nat.add_0_r in *.
    apply memb_false in Hk, Hr; rewrite Hk, Hr; reflexivity.
  - assert (H0 : memb (randbyte r) (keys tbl) || memb (randbyte r) raw = true).
    { destruct (Hbad 0 ltac:(lia)) as [H|H]; rewrite Nat.add_0_r in H;
        apply orb_true_iff; [left | right]; apply (existsb_keqb Byte.eqb byte_eqb_spec); exact H. }
    rewrite H0; destruct d as [|d]; [lia|].
    apply Nat.eqb_neq in Hex.
    replace (r + S i) with (S r + i) by lia.
    apply IH; [exact Hex | lia | | rewrite Nat.add_succ_l, <- Nat.add_succ_r; exact Hk
              | rewrite Nat.add_succ_l, <- Nat.add_succ_r; exact Hr].
    intros j Hj; rewrite Nat.add_succ_l, <- Nat.add_succ_r; apply Hbad; lia.
Qed.

(** When the table is not full and the draws [r], ..., [r + d] are all
    keys or input octets, the allocator exhausts its depth budget [d] and
    raises [RecursionError]. *)
Theorem get_replacement_recursion_error randbyte tbl raw : forall d r,
  length tbl <> 256 - length (nodup byte_eq_dec raw) ->
  (forall j, j <= d -> In (randbyte (r + j)) (keys tbl) \/ In (randbyte (r + j)) raw) ->
  get_replacement_aux randbyte d tbl raw r = (Raise RecursionError, S (r + d)).
Proof.
  induction d as [|d IH]; intros r Hex Hbad;
    rewrite get_replacement_aux_unfold; apply Nat.eqb_neq in Hex; rewrite Hex;
    (assert (H0 : memb (randbyte r) (keys tbl) || memb (randbyte r) raw = true);
     [destruct (Hbad 0 ltac:(lia)) as [H|H]; rewrite Nat.add_0_r in H;
        apply orb_true_iff; [left | right]; apply (existsb_keqb Byte.eqb byte_eqb_spec); exact H|]);
    rewrite H0.
  - rewrite Nat.add_0_r; reflexivity.
  - apply Nat.eqb_neq in Hex.
    rewrite (IH (S r) Hex); [f_equal; lia|].
    intros j Hj; rewrite Nat.add_succ_l, <- Nat.add_succ_r; apply Hbad; lia.
Qed.

(** ** What a fresh compressor raises *)

(** On a fresh compressor, [compress_binary] raises only on inputs of
    fewer than two octets, and then only [UnboundLocalError]. *)
Theorem compress_fresh_raises_only_short randbyte raw r e obj' r' :
  compress_binary randbyte fresh_compressor raw r = Some (Raise e, obj', r') ->
  e = UnboundLocalError /\ length raw <= 1.
Proof.
  intros H.
  destruct (le_lt_dec 2 (length raw)) as [Hl|Hl].
  - destruct (compress_decompress_roundtrip randbyte raw r Hl) as [art [o [q [E _]]]].
    rewrite E in H; discriminate.
  - split; [|lia].
    assert (Hp : pair_freq raw = []).
    { destruct raw as [|x [|y rest]]; [reflexivity | reflexivity | cbn [length] in Hl; lia]. }
    unfold compress_binary in H; rewrite compress_loop_S in H; cbn [enc_init last_pair_frequency] in H.
    change (0 =? 1) with false in H; cbv iota in H.
    unfold loop_body in H; cbn [buffer lookup_table rng enc_init fresh_compressor obj_lookup_table] in H.
    destruct (get_replacement randbyte [] raw r) as [[c|e'] r''].
    + rewrite Hp in H.
      change (max_pair []) with (@Raise ((byte * byte) * nat) UnboundLocalError) in H.
      cbv iota in H; injection H; auto.
    + unfold serialize in H; cbn [with_rng lookup_table length] in H.
      change (Byte.of_nat 0) with (Some x00) in H; discriminate.
Qed.

(** ** The artifact of a fresh compressor *)

Lemma loop_body_table_snoc randbyte raw s s' :
  loop_body randbyte raw s = Continue s' ->
  exists c p, lookup_table s' = lookup_table s ++ [(c, p)].
Proof.
  intros H; destruct (loop_body_continue _ _ _ _ H) as [c [r' [p [f [G [_ ->]]]]]].
  destruct (get_replacement_aux_spec randbyte (lookup_table s) raw recursion_limit (rng s))
    as [_ Hok].
  unfold get_replacement in G; rewrite G in Hok.
  exists c, p; cbn [lookup_table].
  apply (dict_set_fresh Byte.eqb byte_eqb_spec), (Hok c eq_refl).
Qed.

Lemma compress_loop_size randbyte raw : forall n s,
  encoder_inv raw s ->
  length (buffer s) + length (lookup_table s) <= length raw ->
  length (buffer s) < n ->
  exists s', compress_loop randbyte n raw s = Exited s' /\ encoder_inv raw s' /\
    length (buffer s') + length (lookup_table s') <= length raw.
Proof.
  induction n as [|n IH]; intros s Hinv Hsz Hn; [lia|].
  rewrite compress_loop_S.
  destruct (last_pair_frequency s =? 1) eqn:F; [eauto|].
  apply Nat.eqb_neq in F.
  destruct (loop_body randbyte raw s) as [s'|s'|e s'] eqn:B.
  - pose proof (loop_body_shrinks _ _ _ _ B).
    destruct (loop_body_table_snoc _ _ _ _ B) as [c [p Ht]].
    apply IH; [exact (encoder_inv_step _ _ _ _ B Hinv) | | lia].
    rewrite Ht, length_app; cbn [length]; lia.
  - destruct (loop_body_break _ _ _ _ B) as [r' ->].
    exists (with_rng s r'); split; [reflexivity|].
    destruct Hinv as (H1 & H2 & H3 & H4 & H5); repeat split; auto.
  - apply loop_body_fail in B.
    destruct Hinv as (_ & _ & _ & _ & H5); specialize (H5 F); lia.
Qed.

(** On a fresh compressor and an input [X] of at least two octets,
    [compress_binary] returns [count + payload + key + value ...]: the
    count is the number of table entries, the codes are distinct and
    absent from [X], every payload octet is an octet of [X] or a code, the
    table has at most [256 - (distinct octets of X)] entries, and payload
    and table together have at most [len(X)] elements (each iteration
    adds one entry and shortens the buffer). *)
Theorem compress_fresh_artifact_shape randbyte raw r :
  2 <= length raw ->
  exists n buf tbl r',
    compress_binary randbyte fresh_compressor raw r =
      Some (Ok (n :: buf ++ table_bytes tbl),
            {| obj_lookup_table := tbl; obj_raw_file_data := raw |}, r') /\
    Byte.to_nat n = length tbl /\
    NoDup (keys tbl) /\ (forall k, In k (keys tbl) -> ~ In k raw) /\
    (forall x, In x buf -> In x raw \/ In x (keys tbl)) /\
    length tbl <= 256 - length (nodup byte_eq_dec raw) /\
    length buf + length tbl <= length raw.
Proof.
  intros Hlen.
  assert (Hinit : encoder_inv raw (enc_init fresh_compressor raw r)).
  { unfold encoder_inv; cbn [buffer lookup_table last_pair_frequency enc_init fresh_compressor
                                obj_lookup_table].
    split; [constructor|]; split; [auto|]; split.
    - unfold expansion; cbn [rev exp_rev]; apply concat_map_singleton.
    - split; [cbn [length]; lia | intros _; exact Hlen]. }
  destruct (compress_loop_size randbyte raw (S (length raw)) _ Hinit ltac:(cbn; lia) ltac:(cbn; lia))
    as [s [E [(Hl & Hb & Hc & Ht & _) Hsz]]].
  assert (Hraw : raw <> []) by (intros ->; cbn in Hlen; lia).
  pose proof (nodup_length_pos raw Hraw).
  destruct (serialize_small s ltac:(lia)) as [n [Hn Hs]].
  destruct (layered_keys _ _ Hl) as [Hnd Hkr].
  exists n, (buffer s), (lookup_table s), (rng s).
  split; [unfold compress_binary; rewrite E, Hs; reflexivity|].
  repeat split; auto.
Qed.

(** ** Instances of the further properties *)

Lemma loop_body_eliminates_pair_witness :
  Reach counting_rand sample_aaa aaa_init aaa_init /\
  loop_body counting_rand sample_aaa aaa_init = Continue aaa_s1 /\
  exists p c,
    buffer aaa_s1 = bytes_replace p c (buffer aaa_init) /\
    In p (adjacent_pairs (buffer aaa_init)) /\
    ~ In p (adjacent_pairs (buffer aaa_s1)).
Proof.
  assert (H1 : Reach counting_rand sample_aaa aaa_init aaa_init) by apply reach_refl.
  assert (H2 : loop_body counting_rand sample_aaa aaa_init = Continue aaa_s1)
    by (vm_compute; reflexivity).
  split; [exact H1|]; split; [exact H2|].
  exact (loop_body_eliminates_pair counting_rand fresh_compressor sample_aaa 0 aaa_init aaa_s1 H1 H2).
Defined.

Lemma decompress_self_reference_raises_witness :
  reconstruct_dict [x01; x05; x05; x05; x05] = Ok [(x05, (x05, x05))] /\
  decompress_binary [x01; x05; x05; x05; x05] = Raise RecursionError.
Proof.
  assert (H1 : reconstruct_dict [x01; x05; x05; x05; x05] = Ok [(x05, (x05, x05))])
    by (vm_compute; reflexivity).
  assert (H2 : dict_get Byte.eqb x05 [(x05, (x05, x05))] = Some (x05, x05))
    by (vm_compute; reflexivity).
  assert (H3 : In x05 (skipn 1 (firstn (length [x01; x05; x05; x05; x05] -
                                        length [(x05, (x05, x05))] * 3) [x01; x05; x05; x05; x05])))
    by (vm_compute; left; reflexivity).
  split; [exact H1|].
  exact (decompress_self_reference_raises _ _ x05 x05 x05 H1 H2 (or_introl eq_refl) H3).
Defined.

Lemma reconstruct_dict_serialized_witness :
  NoDup (keys [(x00, (x41, x42))]) /\ Byte.to_nat x01 = length [(x00, (x41, x42))] /\
  reconstruct_dict (x01 :: [x00; x00] ++ table_bytes [(x00, (x41, x42))]) = Ok [(x00, (x41, x42))].
Proof.
  assert (H1 : NoDup (keys [(x00, (x41, x42))])) by (constructor; [intros [] | constructor]).
  assert (H2 : Byte.to_nat x01 = length [(x00, (x41, x42))]) by reflexivity.
  split; [exact H1|]; split; [exact H2|].
  exact (reconstruct_dict_serialized x01 [x00; x00] _ H1 H2).
Defined.

Lemma allocation_failure_caught_witness :
  get_replacement (fun _ => x41) [] [x41; x41] 0 = (Raise RecursionError, 1001) /\
  exists n, Byte.to_nat n = 0 /\
    compress_binary (fun _ => x41) fresh_compressor [x41; x41] 0 =
      Some (Ok (n :: [x41; x41] ++ table_bytes []),
            {| obj_lookup_table := []; obj_raw_file_data := [x41; x41] |}, 1001).
Proof.
  assert (H1 : Reach (fun _ => x41) [x41; x41] (enc_init fresh_compressor [x41; x41] 0)
                 (enc_init fresh_compressor [x41; x41] 0)) by apply reach_refl.
  assert (H2 : last_pair_frequency (enc_init fresh_compressor [x41; x41] 0) <> 1)
    by (vm_compute; discriminate).
  assert (H3 : get_replacement (fun _ => x41) [] [x41; x41] 0 = (Raise RecursionError, 1001))
    by (vm_compute; reflexivity).
  assert (H4 : length (@nil (byte * (byte * byte))) <= 255) by (cbn; lia).
  split; [exact H3|].
  exact (allocation_failure_caught (fun _ => x41) fresh_compressor [x41; x41] 0
           (enc_init fresh_compressor [x41; x41] 0) RecursionError 1001 H1 H2 H3 H4).
Defined.

Lemma get_replacement_first_admissible_witness :
  get_replacement counting_rand [] [x00; x01] 0 = (Ok x02, 3).
Proof.
  assert (Hex : length (@nil (byte * (byte * byte))) <> 256 - length (nodup byte_eq_dec [x00; x01]))
    by (vm_compute; discriminate).
  assert (Hbad : forall j, j < 2 ->
            In (counting_rand (0 + j)) (keys []) \/ In (counting_rand (0 + j)) [x00; x01]).
  { intros j Hj; right; destruct j as [|[|j]]; [left | right; left | lia]; reflexivity. }
  assert (Hk : ~ In (counting_rand (0 + 2)) (keys (@nil (byte * (byte * byte))))) by (intros []).
  assert (Hr : ~ In (counting_rand (0 + 2)) [x00; x01])
    by (vm_compute; intros [H|[H|[]]]; discriminate).
  exact (get_replacement_first_admissible counting_rand [] [x00; x01] 2 recursion_limit 0
           Hex ltac:(unfold recursion_limit; lia) Hbad Hk Hr).
Defined.

Lemma get_replacement_recursion_error_witness :
  get_replacement (fun _ => x41) [] [x41] 0 = (Raise RecursionError, 1001).
Proof.
  assert (Hex : length (@nil (byte * (byte * byte))) <> 256 - length (nodup byte_eq_dec [x41]))
    by (vm_compute; discriminate).
  exact (get_replacement_recursion_error (fun _ => x41) [] [x41] recursion_limit 0 Hex
           (fun j _ => or_intror (or_introl eq_refl))).
Defined.

Lemma compress_fresh_raises_only_short_witness :
  compress_binary counting_rand fresh_compressor [] 0 =
    Some (Raise UnboundLocalError, {| obj_lookup_table := []; obj_raw_file_data := [] |}, 1) /\
  UnboundLocalError = UnboundLocalError /\ length (@nil byte) <= 1.
Proof.
  assert (H : compress_binary counting_rand fresh_compressor [] 0 =
    Some (Raise UnboundLocalError, {| obj_lookup_table := []; obj_raw_file_data := [] |}, 1))
    by (vm_compute; reflexivity).
  split; [exact H|].
  exact (compress_fresh_raises_only_short counting_rand [] 0 _ _ _ H).
Defined.

Lemma compress_fresh_artifact_shape_witness :
  2 <= length sample_aaa /\
  exists n buf tbl r',
    compress_binary counting_rand fresh_compressor sample_aaa 0 =
      Some (Ok (n :: buf ++ table_bytes tbl),
            {| obj_lookup_table := tbl; obj_raw_file_data := sample_aaa |}, r') /\
    Byte.to_nat n = length tbl /\
    NoDup (keys tbl) /\ (forall k, In k (keys tbl) -> ~ In k sample_aaa) /\
    (forall x, In x buf -> In x sample_aaa \/ In x (keys tbl)) /\
    length tbl <= 256 - length (nodup byte_eq_dec sample_aaa) /\
    length buf + length tbl <= length sample_aaa.
Proof.
  assert (H : 2 <= length sample_aaa) by (cbv [sample_aaa length]; lia).
  split; [exact H | exact (compress_fresh_artifact_shape counting_rand sample_aaa 0 H)].
Defined.
